(** * Group-by request builder of h2o-py ([h2o/group_by.py])

    A shallow embedding of the [GroupBy] class: the Python values it
    inspects, the client-side view of an [H2OFrame], a store of
    [GroupBy] objects addressed by reference, and the methods of the
    class as computations in a state-and-exception monad.  *)

From stdpp Require Import base option list gmap strings.
From Stdlib Require Import ZArith Lia.

Set Warnings "-register-all".
Set Default Proof Using "Type".
Open Scope Z_scope.

(** ** Python values *)

Module Py.

(** The values that reach [GroupBy] as [by], [col] or [na].  [PObj] stands
    for a value of any other type (a float, a dict, a user object, ...):
    it is neither [None], a [str], an [int], a [list] nor a [tuple];
    [as_int] is the int it compares equal to under [==], if there is one
    (as [1.0 == 1]). *)
Inductive pyval : Type :=
| PNone
| PStr (s : string)
| PInt (z : Z)
| PList (l : list pyval)
| PTuple (l : list pyval)
| PObj (id : nat) (as_int : option Z).

(** Induction with the hypothesis available on the elements of a list or
    tuple. *)
Section pyval_nested_ind.
Variable P : pyval -> Prop.
Hypothesis HNone : P PNone.
Hypothesis HStr : forall s, P (PStr s).
Hypothesis HInt : forall z, P (PInt z).
Hypothesis HList : forall l, Forall P l -> P (PList l).
Hypothesis HTuple : forall l, Forall P l -> P (PTuple l).
Hypothesis HObj : forall id n, P (PObj id n).

Fixpoint pyval_nested_ind (v : pyval) : P v :=
  let all := fix all (l : list pyval) : Forall P l :=
    match l with
    | [] => @List.Forall_nil _ P
    | x :: r => @List.Forall_cons _ P x r (pyval_nested_ind x) (all r)
    end in
  match v with
  | PNone => HNone
  | PStr s => HStr s
  | PInt z => HInt z
  | PList l => HList l (all l)
  | PTuple l => HTuple l (all l)
  | PObj id n => HObj id n
  end.
End pyval_nested_ind.

(** Exceptions the class can raise.  [AttributeError] is what reading a
    field of a reference that holds no [GroupBy] gives. *)
Inductive exn : Type := ValueError | IndexError | KeyError | AttributeError.

Inductive outcome (A : Type) : Type :=
| Return (a : A)
| Raise (e : exn).
Arguments Return {A} a.
Arguments Raise {A} e.

(** Modelled from the spec: [is_type] is defined in
    [h2o/utils/typechecks.py]; [is_type(x, str)], [is_type(x, int)] and
    [is_type(x, list, tuple)] tell the type of [x], here its
    constructor. *)
Definition is_str (v : pyval) : bool :=
  match v with PStr _ => true | _ => false end.
Definition is_int (v : pyval) : bool :=
  match v with PInt _ => true | _ => false end.
Definition is_list_or_tuple (v : pyval) : bool :=
  match v with PList _ | PTuple _ => true | _ => false end.

(** [l.index(x)]: the position of the first element equal to [x];
    [ValueError] when there is none. *)
Fixpoint find_index (x : string) (l : list string) : option nat :=
  match l with
  | [] => None
  | y :: r => if String.eqb y x then Some O else S <$> find_index x r
  end.

Definition list_index (l : list string) (x : string) : outcome Z :=
  match find_index x l with
  | Some i => Return (Z.of_nat i)
  | None => Raise ValueError
  end.

(** [l[i]] with Python's negative indices; [IndexError] out of range. *)
Definition getitem {A : Type} (l : list A) (i : Z) : outcome A :=
  let n := Z.of_nat (length l) in
  let j := if i <? 0 then n + i else i in
  if (0 <=? j) && (j <? n) then
    match l !! Z.to_nat j with
    | Some x => Return x
    | None => Raise IndexError
    end
  else Raise IndexError.

(** [range(n)] *)
Definition range (n : nat) : list Z := Z.of_nat <$> seq 0 n.

(** [v == i] for an int [i] *)
Definition eq_int (v : pyval) (i : Z) : bool :=
  match v with
  | PInt z | PObj _ (Some z) => Z.eqb z i
  | _ => false
  end.

(** [i in l] for an int [i]: some element of [l] is equal to it. *)
Definition int_in (i : Z) (l : list pyval) : bool :=
  existsb (fun v => eq_int v i) l.

(** ** Dictionaries with string keys

    Insertion-ordered, as Python's: assigning to a key that is present
    replaces its value in place, assigning to a new key appends it. *)
Section dict.
Context {V : Type}.

Definition dict : Type := list (string * V).

Fixpoint dict_get (k : string) (d : dict) : option V :=
  match d with
  | [] => None
  | (k', v) :: r => if String.eqb k' k then Some v else dict_get k r
  end.

(** [d[k]] *)
Definition dict_getitem (k : string) (d : dict) : outcome V :=
  match dict_get k d with
  | Some v => Return v
  | None => Raise KeyError
  end.

Fixpoint dict_set (k : string) (v : V) (d : dict) : dict :=
  match d with
  | [] => [(k, v)]
  | (k', v') :: r =>
      if String.eqb k' k then (k, v) :: r else (k', v') :: dict_set k v r
  end.

Definition dict_keys (d : dict) : list string := fst <$> d.

(** No key occurs twice: what every Python dict satisfies. *)
Definition dict_wf (d : dict) : Prop := NoDup (dict_keys d).
End dict.
Arguments dict V : clear implicits.

End Py.
Export Py.

(** ** The engine's objects, as this file uses them *)

(** Modelled from the spec: the class [H2OFrame] is defined in
    [h2o/frame.py]; of a frame that is grouped, [group_by.py] reads
    [frame_id], [names] and [ncol].  [types] (the column types) is part of
    a frame as well and is never read here. *)
Record H2OFrame : Type := {
  frame_id : string;
  names : list string;
  ncol : nat;
  types : list string
}.

(** Modelled from the spec: [ExprNode] is defined in [h2o/expr.py]; an
    expression of the serialization protocol is an operator name applied
    to arguments, which here are a frame, a Python list, or a plain
    value. *)
Inductive arg : Type :=
| AFrame (fr : H2OFrame)
| AList (l : list pyval)
| AVal (v : pyval).

Record ExprNode : Type := mkExprNode {
  _op : string;
  _children : list arg
}.

(** ** The class [GroupBy] *)

Module GroupBy.

(** The fields of one [GroupBy] object.  A value of [_aggs] is the
    three-element list [[op, cidx, na]]; [_res] is [None] or a reference
    to the frame handle made by [get_frame]. *)
Record obj : Type := {
  _fr : H2OFrame;
  _by : list pyval;
  _aggs : dict (list pyval);
  _res : option nat
}.

(** The objects alive in the client: the [GroupBy] objects by reference,
    and the frame handles made so far through [H2OFrame._expr], each with
    the expression it was built from; a handle is referred to by its
    position. *)
Record world : Type := {
  objects : gmap nat obj;
  handles : list ExprNode
}.

(** Computations that read and write the world and may raise. *)
Definition M (A : Type) : Type := world -> outcome A * world.

Definition ret {A : Type} (a : A) : M A := fun w => (Return a, w).

Definition raise {A : Type} (e : exn) : M A := fun w => (Raise e, w).

Definition bind {A B : Type} (c : M A) (k : A -> M B) : M B :=
  fun w =>
    match c w with
    | (Return a, w') => k a w'
    | (Raise e, w') => (Raise e, w')
    end.

#[global] Instance M_ret : MRet M := @ret.
#[global] Instance M_bind : MBind M := fun A B k c => bind c k.

Definition lift {A : Type} (o : outcome A) : M A := fun w => (o, w).

(** [for x in l: body(x)] *)
Definition for_each {A : Type} (body : A -> M unit) : list A -> M unit :=
  fix go (l : list A) : M unit :=
    match l with
    | [] => mret tt
    | x :: r => body x;; go r
    end.

(** [for x in l: acc = step(acc, x)] *)
Definition fold_each {A B : Type} (step : B -> A -> M B) : B -> list A -> M B :=
  fix go (acc : B) (l : list A) : M B :=
    match l with
    | [] => mret acc
    | x :: r => acc' ← step acc x; go acc' r
    end.

(** [self.f] *)
Definition getattr {A : Type} (self : nat) (f : obj -> A) : M A :=
  fun w =>
    match objects w !! self with
    | Some o => (Return (f o), w)
    | None => (Raise AttributeError, w)
    end.

Definition with_aggs (d : dict (list pyval)) (o : obj) : obj :=
  {| _fr := _fr o; _by := _by o; _aggs := d; _res := _res o |}.

Definition with_res (r : option nat) (o : obj) : obj :=
  {| _fr := _fr o; _by := _by o; _aggs := _aggs o; _res := r |}.

Definition update (self : nat) (f : obj -> obj) : M unit :=
  fun w =>
    match objects w !! self with
    | Some o =>
        (Return tt,
         {| objects := <[self := f o]> (objects w); handles := handles w |})
    | None => (Raise AttributeError, w)
    end.

(** [self._aggs[name] = v] *)
Definition setitem_aggs (self : nat) (name : string) (v : list pyval) : M unit :=
  d ← getattr self _aggs;
  update self (with_aggs (dict_set name v d)).

(** [self._res = r] *)
Definition setattr_res (self : nat) (r : nat) : M unit :=
  update self (with_res (Some r)).

(** Modelled from the spec: [H2OFrame._expr] is defined in
    [h2o/frame.py]; it makes a new frame handle for the table that the
    engine computes from the expression. *)
Definition H2OFrame_expr (expr : ExprNode) : M nat :=
  fun w =>
    (Return (length (handles w)),
     {| objects := objects w; handles := handles w ++ [expr] |}).

(** A new object, at a reference not in use. *)
Definition alloc (o : obj) : M nat :=
  fun w =>
    let self := fresh (dom (objects w)) in
    (Return self,
     {| objects := <[self := o]> (objects w); handles := handles w |}).

(** [GroupBy(fr, by)], lines 61-71.  The grouping list of every branch
    is computed first and the object is made from it: when [index]
    raises, no object is returned. *)
Definition resolve (fr : H2OFrame) (b : pyval) : M pyval :=
  match b with
  | PStr s => i ← lift (list_index (names fr) s); mret (PInt i)
  | _ => mret b
  end.

Definition __init__ (fr : H2OFrame) (by_ : pyval) : M nat :=
  bys ← match by_ with
        | PStr s => i ← lift (list_index (names fr) s); mret [PInt i]
        | PList l | PTuple l => mapM (resolve fr) l
        | _ => mret [by_]
        end;
  alloc {| _fr := fr; _by := bys; _aggs := []; _res := None |}.

(** Lines 248-250, for the column index [cidx]. *)
Definition _add_agg_cidx (self : nat) (op : string) (cidx : Z) (na : pyval)
  : M nat :=
  fr ← getattr self _fr;
  cname ← lift (getitem (names fr) cidx);
  let name := op +:+ "_" +:+ cname in
  setitem_aggs self name [PStr op; PInt cidx; na];;
  mret self.

(** [self._add_agg(op, i, na)] for an int [i], as the loop of line 236
    calls it: line 233 replaces [i] by 0 under "nrow", line 241 takes it
    as the column index. *)
Definition _add_agg_int (self : nat) (op : string) (i : Z) (na : pyval)
  : M nat :=
  _add_agg_cidx self op (if String.eqb op "nrow" then 0 else i) na.

(** Lines 232-250.  The tests [col is None], [is_type(col, str)],
    [is_type(col, int)] and [is_type(col, list, tuple)] are the match on
    the constructor of [col]; under "nrow" line 233 has made [col] the
    int 0 before they are reached. *)
Fixpoint _add_agg (self : nat) (op : string) (col na : pyval) {struct col}
  : M nat :=
  if String.eqb op "nrow" then _add_agg_cidx self op 0 na
  else
    match col with
    | PNone =>
        fr ← getattr self _fr;
        for_each (fun i =>
                    by_ ← getattr self _by;
                    if negb (int_in i by_)
                    then _add_agg_int self op i na;; mret tt
                    else mret tt)
                 (range (ncol fr));;
        mret self
    | PStr s =>
        fr ← getattr self _fr;
        cidx ← lift (list_index (names fr) s);
        _add_agg_cidx self op cidx na
    | PInt z => _add_agg_cidx self op z na
    | PList l | PTuple l =>
        for_each (fun i => _add_agg self op i na;; mret tt) l;;
        mret self
    | PObj _ _ => raise ValueError
    end.

(** The aggregation methods, lines 74-186.  The defaults of Python
    ([col=None], [na="all"]) are passed by the caller. *)
Definition min (self : nat) (col na : pyval) : M nat :=
  _add_agg self "min" col na.
Definition max (self : nat) (col na : pyval) : M nat :=
  _add_agg self "max" col na.
Definition mean (self : nat) (col na : pyval) : M nat :=
  _add_agg self "mean" col na.
Definition count (self : nat) (na : pyval) : M nat :=
  _add_agg self "nrow" PNone na.
Definition sum (self : nat) (col na : pyval) : M nat :=
  _add_agg self "sum" col na.
Definition sd (self : nat) (col na : pyval) : M nat :=
  _add_agg self "sdev" col na.
Definition var (self : nat) (col na : pyval) : M nat :=
  _add_agg self "var" col na.
Definition ss (self : nat) (col na : pyval) : M nat :=
  _add_agg self "sumSquares" col na.
Definition mode (self : nat) (col na : pyval) : M nat :=
  _add_agg self "mode" col na.

(** Lines 225-229. *)
Definition get_frame (self : nat) : M nat :=
  res ← getattr self _res;
  match res with
  | None =>
      d ← getattr self _aggs;
      aggs ← fold_each (fun aggs k =>
                          d' ← getattr self _aggs;
                          v ← lift (dict_getitem k d');
                          mret (aggs ++ v))
                       [] (dict_keys d);
      fr ← getattr self _fr;
      by_ ← getattr self _by;
      h ← H2OFrame_expr (mkExprNode "GB" (AFrame fr :: AList by_ :: (AVal <$> aggs)));
      setattr_res self h;;
      mret h
  | Some h => mret h
  end.

(** The property [frame], line 206. *)
Definition frame (self : nat) : M nat := get_frame self.

End GroupBy.

Import GroupBy.

(** ** The stores a call performs

    What [_add_agg] does to [_aggs] depends on the frame, the grouping
    list and the arguments only: a sequence of stores [_aggs[name] = v],
    ended by a normal return or by an exception.  [col_stores] computes
    that sequence; [_add_agg_runs] below proves that [_add_agg] performs
    it. *)

Definition store : Type := string * list pyval.

Definition stores : Type := list store * option exn.

Definition apply_stores (l : list store) (d : dict (list pyval))
  : dict (list pyval) :=
  foldl (fun d kv => dict_set kv.1 kv.2 d) d l.

(** The value stored last under [k], if any. *)
Fixpoint last_store (k : string) (l : list store) : option (list pyval) :=
  match l with
  | [] => None
  | (k', v) :: r =>
      match last_store k r with
      | Some v' => Some v'
      | None => if String.eqb k' k then Some v else None
      end
  end.

Definition no_store : stores := ([], None).

Definition failed (e : exn) : stores := ([], Some e).

(** [t1] and, unless it raised, [t2] after it. *)
Definition and_then (t1 t2 : stores) : stores :=
  match t1.2 with
  | Some e => t1
  | None => (t1.1 ++ t2.1, t2.2)
  end.

Definition each_stores {A : Type} (f : A -> stores) : list A -> stores :=
  fix go (l : list A) : stores :=
    match l with
    | [] => no_store
    | x :: r => and_then (f x) (go r)
    end.

Definition cidx_stores (fr : H2OFrame) (op : string) (cidx : Z) (na : pyval)
  : stores :=
  match getitem (names fr) cidx with
  | Return cname => ([(op +:+ "_" +:+ cname, [PStr op; PInt cidx; na])], None)
  | Raise e => failed e
  end.

Fixpoint col_stores (fr : H2OFrame) (bys : list pyval) (op : string)
    (col na : pyval) {struct col} : stores :=
  if String.eqb op "nrow" then cidx_stores fr op 0 na
  else
    match col with
    | PNone =>
        each_stores (fun i => if negb (int_in i bys)
                              then cidx_stores fr op i na
                              else no_store)
                    (range (ncol fr))
    | PStr s =>
        match list_index (names fr) s with
        | Return cidx => cidx_stores fr op cidx na
        | Raise e => failed e
        end
    | PInt z => cidx_stores fr op z na
    | PList l | PTuple l => each_stores (fun i => col_stores fr bys op i na) l
    | PObj _ _ => failed ValueError
    end.

(** *** Running a computation on one object *)

(** The world with the dictionary of the object at [self] replaced. *)
Definition put_aggs (self : nat) (o : obj) (d : dict (list pyval)) (w : world)
  : world :=
  {| objects := <[self := with_aggs d o]> (objects w); handles := handles w |}.

Definition ends {A : Type} (a : A) (e : option exn) : outcome A :=
  match e with
  | None => Return a
  | Some e => Raise e
  end.

(** [c], run on any world where [self] holds [o] with some dictionary
    [d], performs the stores [t] on [d], touches nothing else, and ends
    as [t] does, returning [a] if it returns. *)
Definition runs_as {A : Type} (self : nat) (o : obj) (c : M A) (a : A)
    (t : stores) : Prop :=
  ∀ d w, objects w !! self = Some (with_aggs d o) →
    c w = (ends a t.2, put_aggs self o (apply_stores t.1 d) w).

(** [c], run on a world where [self] holds no object, changes nothing
    and returns [a] if it returns. *)
Definition idles {A : Type} (self : nat) (c : M A) (a : A) : Prop :=
  ∀ w, objects w !! self = None → ∃ e, c w = (ends a e, w).

(** ** Calls *)

Inductive method : Type :=
| Min | Max | Mean | Count | Sum | Sd | Var | Ss | Mode.

(** The operation name that a method passes to [_add_agg]. *)
Definition op_of (m : method) : string :=
  match m with
  | Min => "min"
  | Max => "max"
  | Mean => "mean"
  | Count => "nrow"
  | Sum => "sum"
  | Sd => "sdev"
  | Var => "var"
  | Ss => "sumSquares"
  | Mode => "mode"
  end.

(** [self.m(col, na)]; [count] takes no [col]. *)
Definition invoke (m : method) (self : nat) (col na : pyval) : M nat :=
  match m with
  | Min => min self col na
  | Max => max self col na
  | Mean => mean self col na
  | Count => count self na
  | Sum => sum self col na
  | Sd => sd self col na
  | Var => var self col na
  | Ss => ss self col na
  | Mode => mode self col na
  end.

(** One use of an object: an aggregation method, [get_frame()], or a
    read of the property [frame]. *)
Inductive call : Type :=
| Agg (m : method) (col na : pyval)
| GetFrame
| FrameProperty.

Definition do_call (self : nat) (c : call) : M nat :=
  match c with
  | Agg m col na => invoke m self col na
  | GetFrame => get_frame self
  | FrameProperty => frame self
  end.

(** The world after a sequence of calls, each on the object it names;
    a call that raises leaves the world as it was when it raised, and the
    next call goes on from there. *)
Definition run_calls (cs : list (nat * call)) (w : world) : world :=
  foldl (fun w c => (do_call c.1 c.2 w).2) w cs.

(** What [get_frame] reads out of a dictionary: the values of its keys,
    in order, concatenated. *)
Definition read_aggs (d : dict (list pyval)) : list pyval :=
  concat ((fun k => default [] (dict_get k d)) <$> dict_keys d).

(** The expression [get_frame] sends for an object. *)
Definition GB_expr (o : obj) : ExprNode :=
  mkExprNode "GB" (AFrame (_fr o) :: AList (_by o) :: (AVal <$> read_aggs (_aggs o))).

(** ** Example objects *)

(** A frame of three columns. *)
Definition ex_frame : H2OFrame :=
  {| frame_id := "py_1";
     names := ["a"; "b"; "c"];
     ncol := 3;
     types := ["enum"; "real"; "string"] |}.

Definition no_objects : world := {| objects := ∅; handles := [] |}.

(** [g = GroupBy(ex_frame, "a")] *)
Definition ex_new : world := (__init__ ex_frame (PStr "a") no_objects).2.

(** ... then [g.min("b", "all").sum(2, "rm")] *)
Definition ex_two : world :=
  run_calls [(O, Agg Min (PStr "b") (PStr "all"));
             (O, Agg Sum (PInt 2) (PStr "rm"))] ex_new.

Definition ex_two_obj : obj :=
  {| _fr := ex_frame;
     _by := [PInt 0];
     _aggs := [("min_b", [PStr "min"; PInt 1; PStr "all"]);
               ("sum_c", [PStr "sum"; PInt 2; PStr "rm"])];
     _res := None |}.

(** ** Vocabulary of the properties *)

(** The name of column [i]; empty when there is no such column. *)
Definition column_name (fr : H2OFrame) (i : Z) : string :=
  match getitem (names fr) i with
  | Return cname => cname
  | Raise _ => ""
  end.

(** The store of [[op, i, na]] under its key. *)
Definition store_of (fr : H2OFrame) (op : string) (na : pyval) (i : Z) : store :=
  (op +:+ "_" +:+ column_name fr i, [PStr op; PInt i; na]).

(** One store for every column index below [ncol] that is not among the
    grouping indices, in increasing order. *)
Definition default_stores (fr : H2OFrame) (bys : list pyval) (op : string)
    (na : pyval) : list store :=
  store_of fr op na <$>
    List.filter (fun i => negb (int_in i bys)) (range (ncol fr)).

(** The same frame with other column types. *)
Definition retyped (tys : list string) (fr : H2OFrame) : H2OFrame :=
  {| frame_id := frame_id fr; names := names fr; ncol := ncol fr; types := tys |}.

(** From [w] to [w']: the object at [self], if there is one, is still
    there with the same frame and grouping list, and with its result if
    it had one; every handle of [w] is still a handle of [w']. *)
Definition evolves (self : nat) (w w' : world) : Prop :=
  (∀ o, objects w !! self = Some o →
        ∃ o', objects w' !! self = Some o' ∧
              _fr o' = _fr o ∧ _by o' = _by o ∧
              (∀ h, _res o = Some h → _res o' = Some h)) ∧
  handles w `prefix_of` handles w'.

(** An element of [by] and what the constructor puts in the grouping
    list for it: the index of the name for a string, the element itself
    otherwise. *)
Definition resolves_to (fr : H2OFrame) (b b' : pyval) : Prop :=
  match b with
  | PStr s => ∃ i, list_index (names fr) s = Return i ∧ b' = PInt i
  | _ => b' = b
  end.

(** Aggregation-method calls [(m, col, na)], all on [self]. *)
Definition agg_calls (self : nat) (cs : list (method * pyval * pyval))
  : list (nat * call) :=
  (fun c => (self, Agg c.1.1 c.1.2 c.2)) <$> cs.

(** All the stores of a sequence of aggregation-method calls on an
    object, in order. *)
Definition added_stores (o : obj) (cs : list (method * pyval * pyval))
  : list store :=
  concat ((fun c => (col_stores (_fr o) (_by o) (op_of c.1.1) c.1.2 c.2).1)
            <$> cs).

(** Every [[op, cidx, na]] that the calls [cs], made with column indices,
    added to the object at [self] is among its accumulated values after
    them. *)
Definition retains_all (w : world) (self : nat)
    (cs : list (method * Z * pyval)) : Prop :=
  ∀ m i na, (m, i, na) ∈ cs →
    ∃ o, objects
           (run_calls (agg_calls self ((fun c => (c.1.1, PInt c.1.2, c.2)) <$> cs)) w)
           !! self = Some o ∧
         [PStr (op_of m); PInt i; na] ∈ (_aggs o).*2.

(** Every dictionary in the world is well formed. *)
Definition world_wf (w : world) : Prop :=
  ∀ r o, objects w !! r = Some o → dict_wf (_aggs o).

(** ** Vocabulary of the further properties *)


(** An entry of [_aggs] as the aggregation methods make them: the list
    [[op, cidx, na]] for the operation of a method and an index [cidx]
    that [names] accepts, under the key made of [op] and the name found
    there. *)
Definition spec_entry (fr : H2OFrame) (kv : string * list pyval) : Prop :=
  ∃ m cidx na cname,
    getitem (names fr) cidx = Return cname ∧
    kv = (op_of m +:+ "_" +:+ cname, [PStr (op_of m); PInt cidx; na]).

(** The column indices that [col=None] stands for. *)
Definition ungrouped (o : obj) : list pyval :=
  PInt <$> List.filter (fun i => negb (int_in i (_by o))) (range (ncol (_fr o))).

(** A frame without columns, and a [GroupBy] on it. *)
Definition ex_empty_frame : H2OFrame :=
  {| frame_id := "py_2"; names := []; ncol := 0; types := [] |}.

Definition ex_empty : world := (__init__ ex_empty_frame (PList []) no_objects).2.

Ltac unfold_monad :=
  unfold mbind, M_bind, bind, mret, M_ret, ret, raise, lift in *.

(** ** Dictionaries: lookups, keys and well-formedness after a store *)

Section dict_facts.
Context {V : Type}.
Implicit Types (d : dict V) (k : string) (v : V).

Lemma dict_get_set_eq k v d : dict_get k (dict_set k v d) = Some v.
Proof.
  induction d as [|[k' v'] r IH]; simpl.
  - by rewrite String.eqb_refl.
  - destruct (String.eqb k' k) eqn:E; simpl.
    + by rewrite String.eqb_refl.
    + by rewrite E.
Qed.

Lemma dict_get_set_ne k k' v d :
  k ≠ k' → dict_get k' (dict_set k v d) = dict_get k' d.
Proof.
  intros Hne. induction d as [|[k0 v0] r IH]; simpl.
  - destruct (String.eqb k k') eqn:E; [|done].
    apply String.eqb_eq in E. done.
  - destruct (String.eqb k0 k) eqn:E; simpl.
    + apply String.eqb_eq in E. subst k0.
      destruct (String.eqb k k') eqn:E'; [|done].
      apply String.eqb_eq in E'. done.
    + by rewrite IH.
Qed.

Lemma dict_get_set k k' v d :
  dict_get k' (dict_set k v d) = if decide (k = k') then Some v else dict_get k' d.
Proof.
  case_decide; [subst; apply dict_get_set_eq | by apply dict_get_set_ne].
Qed.

Lemma dict_get_Some_key k v d : dict_get k d = Some v → k ∈ dict_keys d.
Proof.
  induction d as [|[k' v'] r IH]; simpl; [done|].
  destruct (String.eqb k' k) eqn:E.
  - apply String.eqb_eq in E. subst. intros _. apply list_elem_of_here.
  - intros H. apply list_elem_of_further. by apply IH.
Qed.

Lemma dict_get_None_key k d : dict_get k d = None ↔ k ∉ dict_keys d.
Proof.
  induction d as [|[k' v'] r IH]; simpl.
  - split; [intros _; apply not_elem_of_nil | done].
  - rewrite not_elem_of_cons. destruct (String.eqb k' k) eqn:E.
    + apply String.eqb_eq in E. subst k'. split; [done | tauto].
    + apply String.eqb_neq in E. rewrite IH.
      split; [intros H; split; [congruence | done] | by intros [_ H]].
Qed.

Lemma dict_get_key k d : k ∈ dict_keys d → is_Some (dict_get k d).
Proof.
  intros Hk. destruct (dict_get k d) eqn:E; [by eexists|].
  by apply dict_get_None_key in E.
Qed.

(** A store keeps the keys when the key is there, and appends it when
    it is new. *)
Lemma dict_keys_set k v d :
  dict_keys (dict_set k v d) =
    if decide (k ∈ dict_keys d) then dict_keys d else dict_keys d ++ [k].
Proof.
  induction d as [|[k' v'] r IH]; simpl.
  - done.
  - destruct (String.eqb k' k) eqn:E; simpl.
    + apply String.eqb_eq in E. subst k'.
      rewrite decide_True; [done | apply list_elem_of_here].
    + apply String.eqb_neq in E. rewrite IH.
      destruct (decide (k ∈ dict_keys r)) as [Hin|Hnin].
      * rewrite decide_True; [done | by apply list_elem_of_further].
      * rewrite decide_False; [done |].
        rewrite not_elem_of_cons. naive_solver.
Qed.

Lemma dict_keys_set_in k v d : k ∈ dict_keys (dict_set k v d).
Proof.
  rewrite dict_keys_set. case_decide; [done|].
  apply elem_of_app. right. apply list_elem_of_here.
Qed.

Lemma dict_keys_set_mono k k' v d :
  k' ∈ dict_keys d → k' ∈ dict_keys (dict_set k v d).
Proof.
  intros H. rewrite dict_keys_set. case_decide; [done|].
  apply elem_of_app. by left.
Qed.

Lemma dict_wf_nil : dict_wf (V:=V) [].
Proof. apply NoDup_nil_2. Qed.

Lemma dict_wf_set k v d : dict_wf d → dict_wf (dict_set k v d).
Proof.
  unfold dict_wf. intros Hwf. rewrite dict_keys_set. case_decide; [done|].
  apply NoDup_app. split_and!; [done | | apply NoDup_singleton].
  intros x Hx Hx'. apply list_elem_of_singleton in Hx'. by subst.
Qed.

(** Two well-formed dictionaries with the same keys, in the same order,
    and the same lookups are equal. *)
Lemma dict_ext d1 d2 :
  dict_wf d1 →
  dict_keys d1 = dict_keys d2 →
  (∀ k, dict_get k d1 = dict_get k d2) →
  d1 = d2.
Proof.
  revert d2. induction d1 as [|[k1 v1] r1 IH]; intros [|[k2 v2] r2];
    simpl; try done.
  intros Hwf Hk Hget. injection Hk as -> Hk.
  apply NoDup_cons in Hwf as [Hnin Hwf].
  pose proof (Hget k2) as H2. rewrite String.eqb_refl in H2.
  injection H2 as ->. f_equal. apply IH; [done..|].
  intros k. specialize (Hget k).
  destruct (String.eqb k2 k) eqn:E; [|done].
  apply String.eqb_eq in E. subst k.
  assert (dict_get k2 r1 = None) as -> by by apply dict_get_None_key.
  symmetry. apply dict_get_None_key. unfold dict_keys in *. by rewrite <- Hk.
Qed.

(** In a well-formed dictionary, reading the keys in order reads the
    values in order. *)
Lemma dict_get_in_order d :
  dict_wf d → Forall (fun kv => dict_get kv.1 d = Some kv.2) d.
Proof.
  induction d as [|[k v] r IH]; intros Hwf; constructor; simpl.
  - by rewrite String.eqb_refl.
  - apply NoDup_cons in Hwf as [Hnin Hwf].
    eapply Forall_impl; [by apply IH|].
    intros [k' v'] Hg. simpl in *.
    destruct (String.eqb k k') eqn:E; [|done].
    apply String.eqb_eq in E. subst k'.
    apply dict_get_Some_key in Hg. done.
Qed.

End dict_facts.

(** ** Sequences of stores *)

Lemma apply_stores_cons k v l d :
  apply_stores ((k, v) :: l) d = apply_stores l (dict_set k v d).
Proof. reflexivity. Qed.

Lemma apply_stores_app l1 l2 d :
  apply_stores (l1 ++ l2) d = apply_stores l2 (apply_stores l1 d).
Proof. apply foldl_app. Qed.

Lemma last_store_app k l1 l2 :
  last_store k (l1 ++ l2) =
    match last_store k l2 with
    | Some v => Some v
    | None => last_store k l1
    end.
Proof.
  induction l1 as [|[k' v'] r IH]; simpl.
  - by destruct (last_store k l2).
  - rewrite IH. by destruct (last_store k l2).
Qed.

Lemma last_store_key k v l : last_store k l = Some v → (k, v) ∈ l.
Proof.
  induction l as [|[k' v'] r IH]; simpl; [done|].
  destruct (last_store k r) as [v0|].
  - intros [= ->]. apply list_elem_of_further. by apply IH.
  - destruct (String.eqb k' k) eqn:E; [|done].
    apply String.eqb_eq in E. intros [= ->]. subst. apply list_elem_of_here.
Qed.

Lemma last_store_None k l : last_store k l = None ↔ k ∉ l.*1.
Proof.
  induction l as [|[k' v'] r IH]; simpl.
  - split; [intros _; apply not_elem_of_nil | done].
  - rewrite not_elem_of_cons, <- IH.
    destruct (last_store k r); [split; [done | by intros [_ ?]]|].
    destruct (String.eqb k' k) eqn:E.
    + apply String.eqb_eq in E. subst. split; [done | by intros [? _]].
    + apply String.eqb_neq in E. split; [intros _; split; congruence | done].
Qed.

(** After a sequence of stores, a key holds the value stored last, or
    what it held before when nothing was stored under it. *)
Lemma dict_get_apply_stores k l d :
  dict_get k (apply_stores l d) =
    match last_store k l with
    | Some v => Some v
    | None => dict_get k d
    end.
Proof.
  revert d. induction l as [|[k' v'] r IH]; intros d; [done|].
  rewrite apply_stores_cons, IH. simpl.
  destruct (last_store k r); [done|].
  rewrite dict_get_set.
  destruct (String.eqb k' k) eqn:E.
  - apply String.eqb_eq in E. by rewrite decide_True.
  - apply String.eqb_neq in E. by rewrite decide_False.
Qed.

Lemma dict_wf_apply_stores l d : dict_wf d → dict_wf (apply_stores l d).
Proof.
  revert d. induction l as [|[k v] r IH]; intros d Hwf; [done|].
  rewrite apply_stores_cons. apply IH. by apply dict_wf_set.
Qed.

Lemma dict_keys_apply_stores_mono k l d :
  k ∈ dict_keys d → k ∈ dict_keys (apply_stores l d).
Proof.
  revert d. induction l as [|[k' v'] r IH]; intros d Hk; [done|].
  rewrite apply_stores_cons. apply IH. by apply dict_keys_set_mono.
Qed.

Lemma dict_keys_apply_stores_in k l d :
  k ∈ l.*1 → k ∈ dict_keys (apply_stores l d).
Proof.
  revert d. induction l as [|[k' v'] r IH]; intros d Hk.
  - by apply elem_of_nil in Hk.
  - rewrite apply_stores_cons. rewrite fmap_cons in Hk.
    apply elem_of_cons in Hk as [->|Hk]; [|by apply IH].
    apply dict_keys_apply_stores_mono, dict_keys_set_in.
Qed.

Lemma dict_keys_apply_stores_same l d :
  (∀ k, k ∈ l.*1 → k ∈ dict_keys d) →
  dict_keys (apply_stores l d) = dict_keys d.
Proof.
  revert d. induction l as [|[k v] r IH]; intros d Hin; [done|].
  assert (k ∈ dict_keys d) as Hk by (apply Hin; apply list_elem_of_here).
  assert (dict_keys (dict_set k v d) = dict_keys d) as Hset.
  { rewrite dict_keys_set. by rewrite decide_True. }
  rewrite apply_stores_cons, IH; [done|].
  intros k' Hk'. rewrite Hset. apply Hin. rewrite fmap_cons.
  by apply list_elem_of_further.
Qed.

(** Performing the same stores a second time changes nothing. *)
Lemma apply_stores_twice l d :
  dict_wf d → apply_stores l (apply_stores l d) = apply_stores l d.
Proof.
  intros Hwf. apply dict_ext.
  - by do 2 apply dict_wf_apply_stores.
  - apply dict_keys_apply_stores_same. intros k Hk.
    by apply dict_keys_apply_stores_in.
  - intros k. rewrite !dict_get_apply_stores. by destruct (last_store k l).
Qed.

(** ** The computations of the class, run on one object *)

Section runs.
Context (self : nat) (o : obj).

Lemma put_aggs_id d w :
  objects w !! self = Some (with_aggs d o) → put_aggs self o d w = w.
Proof.
  intros H. destruct w as [objs hs]. unfold put_aggs. simpl in *.
  f_equal. by apply insert_id.
Qed.

Lemma put_aggs_lookup d w :
  objects (put_aggs self o d w) !! self = Some (with_aggs d o).
Proof. unfold put_aggs. simpl. apply lookup_insert_eq. Qed.

Lemma put_aggs_twice d1 d2 w :
  put_aggs self o d2 (put_aggs self o d1 w) = put_aggs self o d2 w.
Proof. unfold put_aggs. simpl. f_equal. apply insert_insert_eq. Qed.

Lemma runs_as_ret {A : Type} (a : A) : runs_as self o (mret a) a no_store.
Proof. intros d w H. unfold_monad. simpl. by rewrite put_aggs_id. Qed.

Lemma runs_as_raise {A : Type} (a : A) e :
  runs_as self o (raise e) a (failed e).
Proof. intros d w H. unfold_monad. simpl. by rewrite put_aggs_id. Qed.

Lemma runs_as_bind {A B : Type} (c : M A) (k : A → M B) a b t1 t2 :
  runs_as self o c a t1 →
  runs_as self o (k a) b t2 →
  runs_as self o (c ≫= k) b (and_then t1 t2).
Proof.
  intros Hc Hk d w H. unfold_monad. rewrite (Hc d w H).
  destruct t1 as [l1 [e|]]; simpl; [done|].
  rewrite (Hk (apply_stores l1 d) _ (put_aggs_lookup _ _)).
  unfold and_then. simpl. by rewrite put_aggs_twice, apply_stores_app.
Qed.

Lemma runs_as_getattr {A B : Type} (f : obj → A) (k : A → M B) x b t :
  (∀ d, f (with_aggs d o) = x) →
  runs_as self o (k x) b t →
  runs_as self o (getattr self f ≫= k) b t.
Proof.
  intros Hf Hk d w H. unfold_monad. unfold getattr. rewrite H, Hf.
  by apply Hk.
Qed.

Lemma runs_as_lift_Return {A B : Type} (k : A → M B) x b t :
  runs_as self o (k x) b t →
  runs_as self o (lift (Return x) ≫= k) b t.
Proof. intros Hk d w H. unfold_monad. by apply Hk. Qed.

Lemma runs_as_lift_Raise {A B : Type} (k : A → M B) e b :
  runs_as self o (lift (Raise e) ≫= k) b (failed e).
Proof. intros d w H. unfold_monad. simpl. by rewrite put_aggs_id. Qed.

Lemma runs_as_setitem name v :
  runs_as self o (setitem_aggs self name v) () ([(name, v)], None).
Proof.
  intros d w H. unfold setitem_aggs, getattr, update. unfold_monad.
  rewrite H. simpl. rewrite H. done.
Qed.

Lemma runs_as_for_each {A : Type} (body : A → M unit) (f : A → stores) l :
  Forall (fun x => runs_as self o (body x) () (f x)) l →
  runs_as self o (for_each body l) () (each_stores f l).
Proof.
  induction 1 as [|x r Hx _ IH]; simpl.
  - apply runs_as_ret.
  - by apply (runs_as_bind (body x) (fun _ => for_each body r) ()).
Qed.

Lemma and_then_no_store t : and_then t no_store = t.
Proof.
  destruct t as [l [e|]]; unfold and_then; simpl; [done|].
  by rewrite app_nil_r.
Qed.

Lemma runs_as_then_ret {A B : Type} (c : M A) a (b : B) t :
  runs_as self o c a t →
  runs_as self o (c ≫= λ _, mret b) b t.
Proof.
  intros Hc. rewrite <- (and_then_no_store t).
  apply (runs_as_bind c _ a b); [done | apply runs_as_ret].
Qed.

Lemma _add_agg_cidx_runs op cidx na :
  runs_as self o (_add_agg_cidx self op cidx na) self
    (cidx_stores (_fr o) op cidx na).
Proof.
  unfold _add_agg_cidx, cidx_stores.
  apply runs_as_getattr with (x := _fr o); [done|].
  destruct (getitem (names (_fr o)) cidx) as [cname|e].
  - apply runs_as_lift_Return.
    apply (runs_as_then_ret _ ()), runs_as_setitem.
  - apply runs_as_lift_Raise.
Qed.

Lemma _add_agg_int_runs op i na :
  runs_as self o (_add_agg_int self op i na) self
    (cidx_stores (_fr o) op (if String.eqb op "nrow" then 0 else i) na).
Proof. apply _add_agg_cidx_runs. Qed.

(** [_add_agg] performs the stores of [col_stores]. *)
Lemma _add_agg_runs op col na :
  runs_as self o (_add_agg self op col na) self
    (col_stores (_fr o) (_by o) op col na).
Proof.
  induction col as [| s | z | l IH | l IH | id n] using pyval_nested_ind;
    simpl; destruct (String.eqb op "nrow") eqn:Hop;
    try apply _add_agg_cidx_runs.
  - apply runs_as_getattr with (x := _fr o); [done|].
    apply (runs_as_then_ret _ ()).
    apply runs_as_for_each, Forall_forall. intros i _.
    apply runs_as_getattr with (x := _by o); [done|].
    destruct (int_in i (_by o)); simpl; [apply runs_as_ret|].
    apply (runs_as_then_ret _ self).
    generalize (_add_agg_int_runs op i na). by rewrite Hop.
  - apply runs_as_getattr with (x := _fr o); [done|].
    destruct (list_index (names (_fr o)) s) as [cidx|e].
    + apply runs_as_lift_Return, _add_agg_cidx_runs.
    + apply runs_as_lift_Raise.
  - apply (runs_as_then_ret _ ()).
    apply runs_as_for_each. eapply Forall_impl; [exact IH|].
    intros i Hi. by apply (runs_as_then_ret _ self).
  - apply (runs_as_then_ret _ ()).
    apply runs_as_for_each. eapply Forall_impl; [exact IH|].
    intros i Hi. by apply (runs_as_then_ret _ self).
  - apply runs_as_raise.
Qed.

End runs.

Section idle.
Context (self : nat).

Lemma idles_ret {A : Type} (a : A) : idles self (mret a) a.
Proof. intros w _. by exists None. Qed.

Lemma idles_raise {A : Type} (a : A) e : idles self (raise e) a.
Proof. intros w _. by exists (Some e). Qed.

Lemma idles_bind {A B : Type} (c : M A) (k : A → M B) a b :
  idles self c a → idles self (k a) b → idles self (c ≫= k) b.
Proof.
  intros Hc Hk w H. unfold_monad. destruct (Hc w H) as [[e|] ->]; simpl.
  - by exists (Some e).
  - by apply Hk.
Qed.

Lemma idles_getattr {A B : Type} (f : obj → A) (k : A → M B) b :
  idles self (getattr self f ≫= k) b.
Proof.
  intros w H. unfold_monad. unfold getattr. rewrite H.
  by exists (Some AttributeError).
Qed.

Lemma idles_for_each {A : Type} (body : A → M unit) l :
  Forall (fun x => idles self (body x) ()) l →
  idles self (for_each body l) ().
Proof.
  induction 1 as [|x r Hx _ IH]; simpl.
  - apply idles_ret.
  - by apply (idles_bind (body x) (fun _ => for_each body r) ()).
Qed.

Lemma _add_agg_cidx_idles op cidx na :
  idles self (_add_agg_cidx self op cidx na) self.
Proof. apply idles_getattr. Qed.

Lemma _add_agg_idles op col na : idles self (_add_agg self op col na) self.
Proof.
  induction col as [| s | z | l IH | l IH | id n] using pyval_nested_ind;
    simpl; destruct (String.eqb op "nrow");
    try apply _add_agg_cidx_idles; try apply idles_getattr;
    try apply idles_raise.
  - apply (idles_bind _ _ ()), idles_ret.
    apply idles_for_each. eapply Forall_impl; [exact IH|].
    intros i Hi. by apply (idles_bind _ _ self), idles_ret.
  - apply (idles_bind _ _ ()), idles_ret.
    apply idles_for_each. eapply Forall_impl; [exact IH|].
    intros i Hi. by apply (idles_bind _ _ self), idles_ret.
Qed.

End idle.

(** ** What a call does to the world *)

Lemma with_aggs_id o : with_aggs (_aggs o) o = o.
Proof. by destruct o. Qed.

Lemma invoke_add_agg m self col na :
  invoke m self col na = _add_agg self (op_of m) col na.
Proof. destruct m; try reflexivity. by destruct col. Qed.

(** [_add_agg_int] is [_add_agg] on an int. *)
Lemma _add_agg_PInt self op i na :
  _add_agg self op (PInt i) na = _add_agg_int self op i na.
Proof.
  unfold _add_agg_int. simpl. by destruct (String.eqb op "nrow").
Qed.

(** On an object, [_add_agg] performs the stores of [col_stores] and ends
    as they end. *)
Lemma _add_agg_run self op col na w o :
  objects w !! self = Some o →
  _add_agg self op col na w =
    (ends self (col_stores (_fr o) (_by o) op col na).2,
     put_aggs self o
       (apply_stores (col_stores (_fr o) (_by o) op col na).1 (_aggs o)) w).
Proof.
  intros H. apply _add_agg_runs. by rewrite with_aggs_id.
Qed.

(** The outcome of [_add_agg] is [self] or an exception, and the world
    after it differs at most in the dictionary of [self]. *)
Lemma _add_agg_effect self op col na w :
  ∃ e, (_add_agg self op col na w).1 = ends self e ∧
    ((_add_agg self op col na w).2 = w ∨
     ∃ o d, objects w !! self = Some o ∧
            (_add_agg self op col na w).2 = put_aggs self o d w).
Proof.
  destruct (objects w !! self) as [o|] eqn:H.
  - rewrite (_add_agg_run _ _ _ _ _ _ H). simpl. eauto 7.
  - destruct (_add_agg_idles self op col na w H) as [e ->]. simpl. eauto.
Qed.

(** The loop of line 227 reads the values of the keys it is given and
    leaves the world alone. *)
Lemma read_loop_run self o w ks acc :
  objects w !! self = Some o →
  (∀ k, k ∈ ks → k ∈ dict_keys (_aggs o)) →
  fold_each (fun aggs k =>
               d' ← getattr self _aggs;
               v ← lift (dict_getitem k d');
               mret (aggs ++ v)) acc ks w =
    (Return (acc ++ concat ((fun k => default [] (dict_get k (_aggs o))) <$> ks)),
     w).
Proof.
  intros H. revert acc. induction ks as [|k r IH]; intros acc Hks; simpl.
  - unfold_monad. by rewrite app_nil_r.
  - destruct (dict_get_key k (_aggs o)) as [v Hv].
    { apply Hks, list_elem_of_here. }
    unfold_monad. unfold getattr at 1. rewrite H. simpl.
    unfold dict_getitem at 1. rewrite Hv. simpl.
    unfold_monad. rewrite IH.
    + by rewrite <- app_assoc.
    + intros k' Hk'. by apply Hks, list_elem_of_further.
Qed.

Lemma get_frame_run self w o :
  objects w !! self = Some o →
  get_frame self w =
    match _res o with
    | Some h => (Return h, w)
    | None =>
        (Return (length (handles w)),
         {| objects := <[self := with_res (Some (length (handles w))) o]>
                         (objects w);
            handles := handles w ++ [GB_expr o] |})
    end.
Proof.
  intros H. unfold get_frame. unfold_monad. unfold getattr at 1.
  rewrite H. destruct (_res o) as [h|] eqn:Hres; [done|].
  unfold getattr at 1. rewrite H.
  rewrite (read_loop_run self o w _ [] H); [|done].
  unfold getattr at 1. rewrite H. unfold getattr at 1. rewrite H.
  unfold H2OFrame_expr, setattr_res, update. simpl. by rewrite H.
Qed.

Lemma get_frame_dangling self w :
  objects w !! self = None → get_frame self w = (Raise AttributeError, w).
Proof.
  intros H. unfold get_frame. unfold_monad. unfold getattr at 1. by rewrite H.
Qed.

(** In a well-formed dictionary the values read are the stored values,
    in order. *)
Lemma read_aggs_wf d : dict_wf d → read_aggs d = concat d.*2.
Proof.
  intros Hwf. unfold read_aggs, dict_keys. f_equal.
  rewrite <- list_fmap_compose. apply Forall_fmap_ext_1.
  eapply Forall_impl; [by apply dict_get_in_order|].
  intros [k v] Hkv. simpl in *. by rewrite Hkv.
Qed.

(** ** Properties of the class *)

(** C1: on an object whose result is not yet computed, [get_frame()]
    makes exactly one new expression, [ExprNode("GB", fr, by, *aggs)],
    where [aggs] is the concatenation of all accumulated
    [[op, cidx, na]] lists, and returns the handle made from it, however
    many aggregations there are. *)
Theorem get_frame_serializes_once self w o :
  objects w !! self = Some o →
  _res o = None →
  dict_wf (_aggs o) →
  get_frame self w =
    (Return (length (handles w)),
     {| objects := <[self := with_res (Some (length (handles w))) o]>
                     (objects w);
        handles :=
          handles w ++
          [mkExprNode "GB"
             (AFrame (_fr o) :: AList (_by o) ::
              (AVal <$> concat (_aggs o).*2))] |}).
Proof.
  intros H Hres Hwf. rewrite (get_frame_run _ _ _ H), Hres.
  unfold GB_expr. by rewrite read_aggs_wf.
Qed.

Lemma get_frame_serializes_once_witness :
  objects ex_two !! O = Some ex_two_obj ∧
  get_frame O ex_two =
    (Return O,
     {| objects := <[O := with_res (Some O) ex_two_obj]> (objects ex_two);
        handles :=
          [mkExprNode "GB"
             [AFrame ex_frame; AList [PInt 0];
              AVal (PStr "min"); AVal (PInt 1); AVal (PStr "all");
              AVal (PStr "sum"); AVal (PInt 2); AVal (PStr "rm")]] |}).
Proof.
  assert (objects ex_two !! O = Some ex_two_obj) as H by (vm_compute; reflexivity).
  split; [exact H|].
  apply (get_frame_serializes_once O ex_two ex_two_obj H); [reflexivity|].
  compute_done.
Defined.

(** C5: an aggregation method that does not raise returns the object it
    was called on. *)
Theorem aggregation_returns_self m self col na w r w' :
  invoke m self col na w = (Return r, w') → r = self.
Proof.
  rewrite invoke_add_agg. intros H.
  destruct (_add_agg_effect self (op_of m) col na w) as [e [He _]].
  rewrite H in He. destruct e; simpl in He; congruence.
Qed.

Lemma aggregation_returns_self_witness :
  invoke Max O PNone (PStr "all") ex_two =
    (Return O, (invoke Max O PNone (PStr "all") ex_two).2) ∧
  O = O.
Proof.
  assert (invoke Max O PNone (PStr "all") ex_two =
            (Return O, (invoke Max O PNone (PStr "all") ex_two).2)) as H
    by (vm_compute; reflexivity).
  split; [exact H|].
  exact (aggregation_returns_self Max O PNone (PStr "all") ex_two O _ H).
Defined.

(** C10: a [col] that is not [None], a string, an int, a list or a tuple
    makes every aggregation method that takes a [col] raise [ValueError],
    and the world, so the accumulated specifications, is as before the
    call. *)
Theorem bad_col_raises_ValueError m self col na w :
  m ≠ Count →
  col ≠ PNone →
  is_str col = false →
  is_int col = false →
  is_list_or_tuple col = false →
  invoke m self col na w = (Raise ValueError, w).
Proof.
  intros Hm Hnone Hstr Hint Hlist.
  destruct col; try done. by destruct m.
Qed.

Lemma bad_col_raises_ValueError_witness :
  invoke Mean O (PObj 7 None) (PStr "all") ex_two = (Raise ValueError, ex_two).
Proof.
  apply (bad_col_raises_ValueError Mean O (PObj 7 None) (PStr "all") ex_two);
    done.
Defined.

Lemma getitem_lookup {A : Type} (l : list A) (i : nat) x :
  l !! i = Some x → getitem l (Z.of_nat i) = Return x.
Proof.
  intros H. pose proof (lookup_lt_Some _ _ _ H) as Hlt. unfold getitem.
  assert ((Z.of_nat i <? 0) = false) as -> by lia.
  assert ((0 <=? Z.of_nat i) && (Z.of_nat i <? Z.of_nat (length l)) = true)
    as -> by (apply andb_true_intro; split; lia).
  by rewrite Nat2Z.id, H.
Qed.

(** The column found by [names.index] has the name that was asked for,
    so the key of a call with a string is made of [op] and that string. *)
Lemma find_index_lookup x l i : find_index x l = Some i → l !! i = Some x.
Proof.
  revert i. induction l as [|y r IH]; intros i; simpl; [done|].
  destruct (String.eqb y x) eqn:E.
  - apply String.eqb_eq in E. by intros [= <-]; subst.
  - destruct (find_index x r) as [j|]; [|done].
    intros [= <-]. by apply IH.
Qed.

Lemma list_index_getitem l s i :
  list_index l s = Return i → getitem l i = Return s.
Proof.
  unfold list_index. destruct (find_index s l) as [j|] eqn:E; [|done].
  intros [= <-]. by apply getitem_lookup, find_index_lookup.
Qed.

(** C4: called with a string, an aggregation method stores the index of
    that name; called with an int, it stores the int as it is; in both
    cases [[op, cidx, na]] goes under the key made of [op], "_" and the
    name of column [cidx]. *)
Theorem scalar_col_stored_under_op_name m self w o col cidx cname na :
  m ≠ Count →
  objects w !! self = Some o →
  (col = PInt cidx ∨
   ∃ s, col = PStr s ∧ list_index (names (_fr o)) s = Return cidx) →
  getitem (names (_fr o)) cidx = Return cname →
  invoke m self col na w =
    (Return self,
     put_aggs self o
       (dict_set (op_of m +:+ "_" +:+ cname) [PStr (op_of m); PInt cidx; na]
                 (_aggs o)) w).
Proof.
  intros Hm H Hcol Hname. rewrite invoke_add_agg, (_add_agg_run _ _ _ _ _ _ H).
  assert (col_stores (_fr o) (_by o) (op_of m) col na =
            cidx_stores (_fr o) (op_of m) cidx na) as ->.
  { destruct Hcol as [->|[s [-> Hs]]]; destruct m; try done;
      simpl; by rewrite Hs. }
  unfold cidx_stores. by rewrite Hname.
Qed.

Lemma scalar_col_stored_under_op_name_witness :
  invoke Sd O (PStr "c") (PStr "rm") ex_two =
    (Return O,
     put_aggs O ex_two_obj
       [("min_b", [PStr "min"; PInt 1; PStr "all"]);
        ("sum_c", [PStr "sum"; PInt 2; PStr "rm"]);
        ("sdev_c", [PStr "sdev"; PInt 2; PStr "rm"])] ex_two).
Proof.
  apply (scalar_col_stored_under_op_name Sd O ex_two ex_two_obj
           (PStr "c") 2 "c" (PStr "rm")).
  - done.
  - vm_compute; reflexivity.
  - right. exists "c". split; reflexivity.
  - reflexivity.
Defined.

(** *** The default expansion of [col=None] *)

Lemma elem_of_range i n : i ∈ range n ↔ 0 ≤ i < Z.of_nat n.
Proof.
  unfold range. rewrite list_elem_of_fmap. split.
  - intros [j [-> Hj]]. apply elem_of_seq in Hj. lia.
  - intros Hi. exists (Z.to_nat i). split; [lia|]. apply elem_of_seq. lia.
Qed.

Lemma cidx_stores_in_range fr op na i :
  0 ≤ i < Z.of_nat (length (names fr)) →
  cidx_stores fr op i na = ([store_of fr op na i], None).
Proof.
  intros Hi. unfold cidx_stores, store_of, column_name.
  destruct (lookup_lt_is_Some_2 (names fr) (Z.to_nat i)) as [c Hc]; [lia|].
  apply getitem_lookup in Hc. rewrite Z2Nat.id in Hc by lia. by rewrite Hc.
Qed.

Lemma each_stores_default fr bys op na l :
  (∀ i, i ∈ l → 0 ≤ i < Z.of_nat (length (names fr))) →
  each_stores (fun i => if negb (int_in i bys)
                        then cidx_stores fr op i na
                        else no_store) l =
    (store_of fr op na <$> List.filter (fun i => negb (int_in i bys)) l, None).
Proof.
  induction l as [|i r IH]; intros Hl; simpl; [done|].
  rewrite IH by (intros j Hj; by apply Hl, list_elem_of_further).
  destruct (int_in i bys); simpl; [done|].
  rewrite cidx_stores_in_range by apply Hl, list_elem_of_here. done.
Qed.

Lemma last_store_unique k v l :
  (k, v) ∈ l → (∀ v', (k, v') ∈ l → v' = v) → last_store k l = Some v.
Proof.
  intros Hin Huniq. destruct (last_store k l) as [v'|] eqn:E.
  - apply last_store_key in E. f_equal. by apply Huniq.
  - apply last_store_None in E. destruct E.
    apply list_elem_of_fmap. by exists (k, v).
Qed.

Lemma column_name_inj fr i j :
  NoDup (names fr) →
  0 ≤ i < Z.of_nat (length (names fr)) →
  0 ≤ j < Z.of_nat (length (names fr)) →
  column_name fr i = column_name fr j → i = j.
Proof.
  intros Hnd Hi Hj. unfold column_name.
  destruct (lookup_lt_is_Some_2 (names fr) (Z.to_nat i)) as [ci Hci]; [lia|].
  destruct (lookup_lt_is_Some_2 (names fr) (Z.to_nat j)) as [cj Hcj]; [lia|].
  pose proof (getitem_lookup _ _ _ Hci) as Gi.
  pose proof (getitem_lookup _ _ _ Hcj) as Gj.
  rewrite Z2Nat.id in Gi, Gj by lia. rewrite Gi, Gj. intros ->.
  pose proof (NoDup_lookup _ _ _ _ Hnd Hci Hcj). lia.
Qed.

(** C8: with [col=None], every aggregation method but [count] performs
    one store of [[op, i, na]] for each column index [i] below [ncol]
    that is not among the grouping indices, and no other; the column
    types play no part, so columns of any type are included. *)
Theorem none_col_covers_all_ungrouped m self w o na :
  m ≠ Count →
  objects w !! self = Some o →
  (ncol (_fr o) ≤ length (names (_fr o)))%nat →
  invoke m self PNone na w =
    (Return self,
     put_aggs self o
       (apply_stores (default_stores (_fr o) (_by o) (op_of m) na) (_aggs o))
       w) ∧
  (∀ tys, default_stores (retyped tys (_fr o)) (_by o) (op_of m) na =
          default_stores (_fr o) (_by o) (op_of m) na) ∧
  (NoDup (names (_fr o)) →
   ∀ i, 0 ≤ i < Z.of_nat (ncol (_fr o)) →
        int_in i (_by o) = false →
        dict_get (op_of m +:+ "_" +:+ column_name (_fr o) i)
          (apply_stores (default_stores (_fr o) (_by o) (op_of m) na)
                        (_aggs o)) =
          Some [PStr (op_of m); PInt i; na]).
Proof.
  intros Hm H Hncol. split_and!.
  - rewrite invoke_add_agg, (_add_agg_run _ _ _ _ _ _ H).
    assert (col_stores (_fr o) (_by o) (op_of m) PNone na =
              (default_stores (_fr o) (_by o) (op_of m) na, None)) as ->; [|done].
    assert (String.eqb (op_of m) "nrow" = false) as Hop by by destruct m.
    simpl. rewrite Hop. apply each_stores_default.
    intros i Hi. apply elem_of_range in Hi. lia.
  - done.
  - intros Hnd i Hi Hby. rewrite dict_get_apply_stores.
    assert (∀ j, j ∈ List.filter (fun i => negb (int_in i (_by o)))
                       (range (ncol (_fr o))) ↔
                 0 ≤ j < Z.of_nat (ncol (_fr o)) ∧ int_in j (_by o) = false)
      as Hmem.
    { intros j. rewrite list_elem_of_In, filter_In, <- list_elem_of_In.
      rewrite elem_of_range, negb_true_iff. tauto. }
    rewrite (last_store_unique _ [PStr (op_of m); PInt i; na]); [done| |].
    + apply list_elem_of_fmap. exists i. split; [done|]. by apply Hmem.
    + intros v' Hv'. apply list_elem_of_fmap in Hv' as [j [Hj Hjin]].
      apply Hmem in Hjin as [Hjr _]. unfold store_of in Hj.
      injection Hj as Hkey ->.
      apply (inj (String.app _)), (inj (String.app _)) in Hkey.
      apply column_name_inj in Hkey; [by subst | done | lia | lia].
Qed.

Lemma none_col_covers_all_ungrouped_witness :
  invoke Max O PNone (PStr "all") ex_two =
    (Return O,
     put_aggs O ex_two_obj
       [("min_b", [PStr "min"; PInt 1; PStr "all"]);
        ("sum_c", [PStr "sum"; PInt 2; PStr "rm"]);
        ("max_b", [PStr "max"; PInt 1; PStr "all"]);
        ("max_c", [PStr "max"; PInt 2; PStr "all"])] ex_two).
Proof.
  apply (proj1 (none_col_covers_all_ungrouped Max O ex_two ex_two_obj
                  (PStr "all") ltac:(done) ltac:(vm_compute; reflexivity)
                  ltac:(simpl; lia))).
Defined.

(** *** Twice the same call *)

(** C6: making the same aggregation call a second time leaves the world,
    so the accumulated specifications, as the first call left it, and
    ends the same way. *)
Theorem same_call_twice_is_once m self w o col na :
  objects w !! self = Some o →
  dict_wf (_aggs o) →
  let once := invoke m self col na w in
  invoke m self col na once.2 = once.
Proof.
  intros H Hwf once. subst once.
  rewrite !invoke_add_agg, (_add_agg_run _ _ _ _ _ _ H). simpl.
  rewrite (_add_agg_run _ _ _ _ _ _ (put_aggs_lookup self o _ w)). simpl.
  change (put_aggs self (with_aggs ?d1 o) ?d2 ?w') with (put_aggs self o d2 w').
  by rewrite put_aggs_twice, apply_stores_twice.
Qed.

Lemma same_call_twice_is_once_witness :
  invoke Min O (PList [PStr "c"; PInt (-1)]) (PStr "rm")
    (invoke Min O (PList [PStr "c"; PInt (-1)]) (PStr "rm") ex_two).2 =
  invoke Min O (PList [PStr "c"; PInt (-1)]) (PStr "rm") ex_two.
Proof.
  apply (same_call_twice_is_once Min O ex_two ex_two_obj).
  - vm_compute; reflexivity.
  - compute_done.
Defined.

(** *** The constructor *)

Lemma resolve_run fr b b' w :
  resolves_to fr b b' → resolve fr b w = (Return b', w).
Proof.
  destruct b; simpl; try by intros ->.
  intros [i [Hi ->]]. unfold_monad. by rewrite Hi.
Qed.

Lemma resolve_world fr b w : (resolve fr b w).2 = w.
Proof.
  destruct b; try done. simpl. unfold_monad.
  by destruct (list_index (names fr) s).
Qed.

Lemma mapM_resolve_run fr l l' w :
  Forall2 (resolves_to fr) l l' → mapM (resolve fr) l w = (Return l', w).
Proof.
  induction 1 as [|b b' l l' Hb _ IH]; simpl; [done|].
  unfold_monad. by rewrite (resolve_run _ _ _ _ Hb), IH.
Qed.

Lemma mapM_resolve_world fr l w : (mapM (resolve fr) l w).2 = w.
Proof.
  induction l as [|b l IH]; simpl; [done|]. unfold_monad.
  pose proof (resolve_world fr b w) as Hb.
  destruct (resolve fr b w) as [[b'|e] w1]; simpl in Hb; subst w1; [|done].
  destruct (mapM (resolve fr) l w) as [[l'|e] w2]; simpl in IH; by subst w2.
Qed.

(** The constructor computes a grouping list without touching the world,
    and makes the object from it unless that raised. *)
Lemma __init___run fr by_ w0 :
  ∃ r : outcome (list pyval),
    __init__ fr by_ w0 =
      match r with
      | Return bys =>
          alloc {| _fr := fr; _by := bys; _aggs := []; _res := None |} w0
      | Raise e => (Raise e, w0)
      end.
Proof.
  unfold __init__. unfold_monad.
  match goal with |- context [match ?c w0 with _ => _ end] =>
    assert ((c w0).2 = w0) as Hc; [|destruct (c w0) as [r w1]]
  end.
  - destruct by_; try done.
    + simpl. by destruct (list_index (names fr) s).
    + apply mapM_resolve_world.
    + apply mapM_resolve_world.
  - simpl in Hc. subst w1. by exists r.
Qed.

(** A constructor call that returns has made an object with the given
    frame, an empty dictionary and no result. *)
Lemma __init___returns fr by_ w0 self w :
  __init__ fr by_ w0 = (Return self, w) →
  ∃ bys, objects w !! self =
           Some {| _fr := fr; _by := bys; _aggs := []; _res := None |}.
Proof.
  destruct (__init___run fr by_ w0) as [[bys|e] ->]; [|done].
  unfold alloc. intros [= <- <-]. exists bys. simpl. apply lookup_insert_eq.
Qed.

(** C3: the constructor turns [by] into a list of column indices: a
    string gives the one-element list of its index among the names; in a
    list or tuple every string is replaced by its index and every other
    element is kept; a value of any other type gives the one-element list
    of that value. *)
Theorem constructor_resolves_by fr w :
  let self := fresh (dom (objects w)) in
  let made bys : outcome nat * world :=
    (Return self,
     {| objects := <[self := {| _fr := fr; _by := bys; _aggs := []; _res := None |}]>
                     (objects w);
        handles := handles w |}) in
  (∀ s i, list_index (names fr) s = Return i →
          __init__ fr (PStr s) w = made [PInt i]) ∧
  (∀ l l', Forall2 (resolves_to fr) l l' →
           __init__ fr (PList l) w = made l' ∧
           __init__ fr (PTuple l) w = made l') ∧
  (∀ by_, is_str by_ = false → is_list_or_tuple by_ = false →
          __init__ fr by_ w = made [by_]).
Proof.
  intros self made. split_and!.
  - intros s i Hi. unfold __init__. unfold_monad. by rewrite Hi.
  - intros l l' Hl. unfold __init__. unfold_monad.
    by rewrite (mapM_resolve_run _ _ _ _ Hl).
  - intros by_ Hs Hl. by destruct by_.
Qed.

Lemma constructor_resolves_by_witness :
  __init__ ex_frame (PTuple [PStr "c"; PInt 0; PNone; PStr "a"]) ex_two =
    (Return 1%nat,
     {| objects :=
          <[1%nat := {| _fr := ex_frame; _by := [PInt 2; PInt 0; PNone; PInt 0];
                        _aggs := []; _res := None |}]> (objects ex_two);
        handles := handles ex_two |}).
Proof.
  refine (proj2 (proj1 (proj2 (constructor_resolves_by ex_frame ex_two))
                   [PStr "c"; PInt 0; PNone; PStr "a"]
                   [PInt 2; PInt 0; PNone; PInt 0] _)).
  repeat constructor; by eexists.
Defined.

(** *** What stays the same across calls *)

Lemma evolves_refl self w : evolves self w w.
Proof. split; [intros o H; by exists o | done]. Qed.

Lemma evolves_trans self w1 w2 w3 :
  evolves self w1 w2 → evolves self w2 w3 → evolves self w1 w3.
Proof.
  intros [H12 P12] [H23 P23]. split; [|by etrans].
  intros o H. destruct (H12 o H) as (o2 & H2 & Hfr2 & Hby2 & Hres2).
  destruct (H23 o2 H2) as (o3 & H3 & Hfr3 & Hby3 & Hres3).
  exists o3. split_and!; [done | congruence | congruence | auto].
Qed.

Lemma put_aggs_evolves self t ot d w :
  objects w !! t = Some ot → evolves self w (put_aggs t ot d w).
Proof.
  intros Ht. split; [|done]. intros o H. unfold put_aggs. simpl.
  destruct (decide (t = self)) as [->|Hne].
  - rewrite lookup_insert_eq. exists (with_aggs d ot).
    assert (ot = o) as -> by congruence. done.
  - rewrite lookup_insert_ne by done. by exists o.
Qed.

Lemma _add_agg_evolves self t op col na w :
  evolves self w (_add_agg t op col na w).2.
Proof.
  destruct (_add_agg_effect t op col na w) as [_ [_ [-> | (o & d & H & ->)]]].
  - apply evolves_refl.
  - by apply put_aggs_evolves.
Qed.

Lemma get_frame_evolves self t w : evolves self w (get_frame t w).2.
Proof.
  destruct (objects w !! t) as [ot|] eqn:Ht.
  - rewrite (get_frame_run _ _ _ Ht).
    destruct (_res ot) as [h|] eqn:Hres; [apply evolves_refl|].
    split; simpl; [|by apply prefix_app_r].
    intros o H. destruct (decide (t = self)) as [->|Hne].
    + rewrite lookup_insert_eq. eexists. split; [done|].
      assert (ot = o) as -> by congruence. simpl. split_and!; try done.
      intros h. by rewrite Hres.
    + rewrite lookup_insert_ne by done. by exists o.
  - rewrite (get_frame_dangling _ _ Ht). apply evolves_refl.
Qed.

Lemma do_call_evolves self t c w : evolves self w (do_call t c w).2.
Proof.
  destruct c as [m col na| |]; simpl.
  - rewrite invoke_add_agg. apply _add_agg_evolves.
  - apply get_frame_evolves.
  - apply get_frame_evolves.
Qed.

Lemma run_calls_evolves self cs w : evolves self w (run_calls cs w).
Proof.
  revert w. induction cs as [|[t c] cs IH]; intros w; simpl.
  - apply evolves_refl.
  - eapply evolves_trans; [apply (do_call_evolves self t c)|apply IH].
Qed.

(** C7: whatever aggregation methods and [get_frame()] are called
    afterwards, on this object or on others, the frame and the grouping
    list of an object are those the constructor set. *)
Theorem constructor_inputs_are_kept fr by_ w0 self w cs :
  __init__ fr by_ w0 = (Return self, w) →
  ∃ o o', objects w !! self = Some o ∧ _fr o = fr ∧
          objects (run_calls cs w) !! self = Some o' ∧
          _fr o' = fr ∧ _by o' = _by o.
Proof.
  intros Hinit. destruct (__init___returns _ _ _ _ _ Hinit) as [bys H].
  destruct (run_calls_evolves self cs w) as [Hobj _].
  destruct (Hobj _ H) as (o' & H' & Hfr & Hby & _).
  eexists _, o'. split_and!; done.
Qed.

Lemma constructor_inputs_are_kept_witness :
  ∃ o o', objects ex_new !! O = Some o ∧ _fr o = ex_frame ∧
          objects (run_calls [(O, Agg Var PNone (PStr "all"));
                              (O, GetFrame);
                              (O, Agg Count PNone (PStr "rm"))] ex_new)
            !! O = Some o' ∧
          _fr o' = ex_frame ∧ _by o' = _by o.
Proof.
  apply (constructor_inputs_are_kept ex_frame (PStr "a") no_objects O ex_new).
  vm_compute; reflexivity.
Defined.

(** C9: after [get_frame()] has returned a handle, every later
    [get_frame()] and every read of [frame] returns that handle and
    changes nothing, whatever calls came in between, and the handle
    still stands for the same expression. *)
Theorem get_frame_result_is_cached self w0 h w cs :
  get_frame self w0 = (Return h, w) →
  get_frame self (run_calls cs w) = (Return h, run_calls cs w) ∧
  frame self (run_calls cs w) = (Return h, run_calls cs w) ∧
  (∀ e, handles w !! h = Some e → handles (run_calls cs w) !! h = Some e).
Proof.
  intros Hget.
  assert (∃ o, objects w !! self = Some o ∧ _res o = Some h) as (o & H & Hres).
  { destruct (objects w0 !! self) as [o0|] eqn:H0.
    - rewrite (get_frame_run _ _ _ H0) in Hget.
      destruct (_res o0) as [h0|] eqn:Hres0.
      + injection Hget as -> ->. by exists o0.
      + injection Hget as <- <-. simpl. rewrite lookup_insert_eq. by eexists.
    - by rewrite (get_frame_dangling _ _ H0) in Hget. }
  destruct (run_calls_evolves self cs w) as [Hobj Hpre].
  destruct (Hobj _ H) as (o' & H' & _ & _ & Hres').
  assert (get_frame self (run_calls cs w) = (Return h, run_calls cs w)) as Hc.
  { by rewrite (get_frame_run _ _ _ H'), (Hres' _ Hres). }
  split_and!; [done | done |].
  intros e He. by eapply prefix_lookup_Some.
Qed.

Lemma get_frame_result_is_cached_witness :
  get_frame O (run_calls [(O, Agg Max PNone (PStr "all")); (O, GetFrame)]
                 (get_frame O ex_two).2) =
    (Return O, run_calls [(O, Agg Max PNone (PStr "all")); (O, GetFrame)]
                 (get_frame O ex_two).2).
Proof.
  apply (get_frame_result_is_cached O ex_two O (get_frame O ex_two).2).
  vm_compute; reflexivity.
Defined.

(** *** What is accumulated *)

Lemma run_calls_app cs1 cs2 w :
  run_calls (cs1 ++ cs2) w = run_calls cs2 (run_calls cs1 w).
Proof. apply foldl_app. Qed.

(** A sequence of aggregation-method calls on an object performs the
    stores of its calls, one call after the other. *)
Lemma run_agg_calls self o cs :
  ∀ d w, objects w !! self = Some (with_aggs d o) →
    run_calls (agg_calls self cs) w =
      put_aggs self o (apply_stores (added_stores o cs) d) w.
Proof.
  induction cs as [|[[m col] na] cs IH]; intros d w H.
  - simpl. by rewrite put_aggs_id.
  - change (run_calls (agg_calls self (((m, col), na) :: cs)) w) with
      (run_calls (agg_calls self cs) (invoke m self col na w).2).
    rewrite invoke_add_agg, (_add_agg_run _ _ _ _ _ _ H). simpl.
    change (put_aggs self (with_aggs d o) ?d2 ?w') with (put_aggs self o d2 w').
    rewrite (IH _ _ (put_aggs_lookup self o _ w)).
    rewrite put_aggs_twice. unfold added_stores. rewrite fmap_cons. simpl.
    by rewrite apply_stores_app.
Qed.

(** C2, as it holds: a dictionary keyed by operation and column name is
    accumulated.  After any sequence of aggregation-method calls every
    key occurs once, every key that was stored is present, and it holds
    the [[op, cidx, na]] stored last under it. *)
Theorem aggs_hold_last_store_per_key self w o cs :
  objects w !! self = Some o →
  dict_wf (_aggs o) →
  ∃ o', objects (run_calls (agg_calls self cs) w) !! self = Some o' ∧
        _aggs o' = apply_stores (added_stores o cs) (_aggs o) ∧
        NoDup (dict_keys (_aggs o')) ∧
        (∀ k, k ∈ (added_stores o cs).*1 → k ∈ dict_keys (_aggs o')) ∧
        (∀ k v, last_store k (added_stores o cs) = Some v →
                dict_get k (_aggs o') = Some v).
Proof.
  intros H Hwf. rewrite <- (with_aggs_id o) in H.
  rewrite (run_agg_calls self o cs _ _ H), put_aggs_lookup.
  eexists. split; [done|]. simpl. split_and!.
  - done.
  - by apply dict_wf_apply_stores.
  - intros k Hk. by apply dict_keys_apply_stores_in.
  - intros k v Hk. by rewrite dict_get_apply_stores, Hk.
Qed.

Lemma aggs_hold_last_store_per_key_witness :
  ∃ o', objects (run_calls (agg_calls O [(Min, PInt 1, PStr "all");
                                         (Min, PStr "b", PStr "rm")]) ex_new)
          !! O = Some o' ∧
        _aggs o' = [("min_b", [PStr "min"; PInt 1; PStr "rm"])].
Proof.
  destruct (aggs_hold_last_store_per_key O ex_new
              {| _fr := ex_frame; _by := [PInt 0]; _aggs := []; _res := None |}
              [(Min, PInt 1, PStr "all"); (Min, PStr "b", PStr "rm")])
    as (o' & H & Haggs & _).
  - vm_compute; reflexivity.
  - compute_done.
  - exists o'. split; [exact H | exact Haggs].
Defined.

(** C2, as it is worded, fails: [min(1, "all")] then [min(1, "rm")] both
    return, and leave one specification, the later one; the earlier
    triple is not among the accumulated ones. *)
Lemma other_na_replaces_earlier_spec :
  invoke Min O (PInt 1) (PStr "all") ex_new =
    (Return O, (invoke Min O (PInt 1) (PStr "all") ex_new).2) ∧
  invoke Min O (PInt 1) (PStr "rm") (invoke Min O (PInt 1) (PStr "all") ex_new).2 =
    (Return O,
     run_calls (agg_calls O [(Min, PInt 1, PStr "all");
                             (Min, PInt 1, PStr "rm")]) ex_new) ∧
  ¬ retains_all ex_new O [(Min, 1, PStr "all"); (Min, 1, PStr "rm")].
Proof.
  split_and!; [vm_compute; reflexivity | vm_compute; reflexivity |].
  intros Hall.
  destruct (Hall Min 1 (PStr "all")) as (o & Ho & Hin).
  { apply list_elem_of_here. }
  vm_compute in Ho. injection Ho as <-. simpl in Hin.
  apply list_elem_of_singleton in Hin. discriminate Hin.
Qed.

(** *** Dictionaries stay well formed

    The hypothesis [dict_wf] of the statements above holds of every
    object that the constructor made, after any calls. *)

Lemma no_objects_wf : world_wf no_objects.
Proof. intros r o H. simpl in H. by rewrite lookup_empty in H. Qed.

Lemma __init___wf fr by_ w : world_wf w → world_wf (__init__ fr by_ w).2.
Proof.
  intros Hwf. destruct (__init___run fr by_ w) as [[bys|e] ->]; [|done].
  unfold alloc. intros r o. simpl.
  destruct (decide (fresh (dom (objects w)) = r)) as [->|Hne].
  - rewrite lookup_insert_eq. intros [= <-]. apply dict_wf_nil.
  - rewrite lookup_insert_ne by done. apply Hwf.
Qed.

Lemma _add_agg_wf self op col na w :
  world_wf w → world_wf (_add_agg self op col na w).2.
Proof.
  intros Hwf. destruct (objects w !! self) as [o|] eqn:H.
  - rewrite (_add_agg_run _ _ _ _ _ _ H). unfold put_aggs.
    intros r o'. simpl. destruct (decide (self = r)) as [->|Hne].
    + rewrite lookup_insert_eq. intros [= <-]. simpl.
      apply dict_wf_apply_stores. by apply (Hwf r).
    + rewrite lookup_insert_ne by done. apply Hwf.
  - by destruct (_add_agg_idles self op col na w H) as [e ->].
Qed.

Lemma get_frame_wf self w : world_wf w → world_wf (get_frame self w).2.
Proof.
  intros Hwf. destruct (objects w !! self) as [o|] eqn:H.
  - rewrite (get_frame_run _ _ _ H). destruct (_res o); [done|].
    intros r o'. simpl. destruct (decide (self = r)) as [->|Hne].
    + rewrite lookup_insert_eq. intros [= <-]. simpl. by apply (Hwf r).
    + rewrite lookup_insert_ne by done. apply Hwf.
  - by rewrite (get_frame_dangling _ _ H).
Qed.

Lemma run_calls_wf cs w : world_wf w → world_wf (run_calls cs w).
Proof.
  revert w. induction cs as [|[t c] cs IH]; intros w Hwf; [done|].
  apply IH. destruct c as [m col na| |]; simpl.
  - rewrite invoke_add_agg. by apply _add_agg_wf.
  - by apply get_frame_wf.
  - by apply get_frame_wf.
Qed.

(** ** Further properties of the class *)

(** *** Names and indices that match no column *)

Lemma mapM_resolve_unknown fr l s w :
  PStr s ∈ l → find_index s (names fr) = None →
  mapM (resolve fr) l w = (Raise ValueError, w).
Proof.
  intros Hin Hs. induction l as [|b l IH]; [by apply elem_of_nil in Hin|].
  apply elem_of_cons in Hin as [<-|Hin]; simpl; unfold_monad.
  - unfold list_index. by rewrite Hs.
  - pose proof (resolve_world fr b w) as Hb.
    destruct (resolve fr b w) as [[b'|e] w1] eqn:Eb; simpl in Hb; subst w1.
    + by rewrite (IH Hin).
    + destruct b; try done. simpl in Eb. unfold_monad.
      destruct (list_index (names fr) s0) as [i|e'] eqn:Ei; [done|].
      unfold list_index in Ei. destruct (find_index s0 (names fr)); [done|].
      by injection Ei as <-; injection Eb as <-.
Qed.

(** X1: when [by] is a string that is no column name, or a list or
    tuple with such a string in it, the constructor raises
    [ValueError] and no object is made. *)
Theorem constructor_rejects_unknown_name fr by_ s w :
  (by_ = PStr s ∨ ∃ l, (by_ = PList l ∨ by_ = PTuple l) ∧ PStr s ∈ l) →
  find_index s (names fr) = None →
  __init__ fr by_ w = (Raise ValueError, w).
Proof.
  intros Hby Hs. unfold __init__.
  destruct Hby as [->|[l [[->| ->] Hin]]]; unfold_monad.
  - unfold list_index. by rewrite Hs.
  - by rewrite (mapM_resolve_unknown _ _ _ _ Hin Hs).
  - by rewrite (mapM_resolve_unknown _ _ _ _ Hin Hs).
Qed.

Lemma constructor_rejects_unknown_name_witness :
  __init__ ex_frame (PList [PInt 1; PStr "a"; PStr "z"]) ex_two =
    (Raise ValueError, ex_two).
Proof.
  apply (constructor_rejects_unknown_name ex_frame _ "z" ex_two).
  - right. exists [PInt 1; PStr "a"; PStr "z"]. split; [by left|].
    do 2 apply list_elem_of_further. apply list_elem_of_here.
  - reflexivity.
Defined.

(** X2: [count(na)] stores [["nrow", 0, na]] under "nrow_" and the name
    of the first column, whatever the grouping columns are; on a frame
    that has no column names it raises [IndexError] and changes
    nothing. *)
Theorem count_is_on_first_column self w o na :
  objects w !! self = Some o →
  count self na w =
    match names (_fr o) with
    | [] => (Raise IndexError, w)
    | c :: _ =>
        (Return self,
         put_aggs self o
           (dict_set ("nrow" +:+ "_" +:+ c) [PStr "nrow"; PInt 0; na] (_aggs o))
           w)
    end.
Proof.
  intros H. unfold count. rewrite (_add_agg_run _ _ _ _ _ _ H).
  change (col_stores (_fr o) (_by o) "nrow" PNone na) with
    (cidx_stores (_fr o) "nrow" 0 na).
  unfold cidx_stores. destruct (names (_fr o)) as [|c r].
  - simpl. rewrite put_aggs_id; [done | by rewrite with_aggs_id].
  - change 0 with (Z.of_nat O).
    by rewrite (getitem_lookup (c :: r) O c eq_refl).
Qed.

Lemma count_is_on_first_column_witness :
  count O (PStr "all") ex_new =
    (Return O,
     put_aggs O {| _fr := ex_frame; _by := [PInt 0]; _aggs := []; _res := None |}
       [("nrow_a", [PStr "nrow"; PInt 0; PStr "all"])] ex_new) ∧
  count O (PStr "all") ex_empty = (Raise IndexError, ex_empty).
Proof.
  split.
  - apply (count_is_on_first_column O ex_new
             {| _fr := ex_frame; _by := [PInt 0]; _aggs := []; _res := None |}).
    vm_compute; reflexivity.
  - apply (count_is_on_first_column O ex_empty
             {| _fr := ex_empty_frame; _by := []; _aggs := []; _res := None |}).
    vm_compute; reflexivity.
Defined.

(** X3: an aggregation method called with a string that is no column
    name raises [ValueError] and changes nothing. *)
Theorem unknown_column_name_raises m self w o s na :
  m ≠ Count →
  objects w !! self = Some o →
  find_index s (names (_fr o)) = None →
  invoke m self (PStr s) na w = (Raise ValueError, w).
Proof.
  intros Hm H Hs. rewrite invoke_add_agg, (_add_agg_run _ _ _ _ _ _ H).
  assert (String.eqb (op_of m) "nrow" = false) as Hop by by destruct m.
  simpl. rewrite Hop. unfold list_index. rewrite Hs. simpl.
  rewrite put_aggs_id; [done | by rewrite with_aggs_id].
Qed.

Lemma unknown_column_name_raises_witness :
  invoke Sum O (PStr "z") (PStr "all") ex_two = (Raise ValueError, ex_two).
Proof.
  apply (unknown_column_name_raises Sum O ex_two ex_two_obj); [done| |done].
  vm_compute; reflexivity.
Defined.

Lemma getitem_out_of_range {A : Type} (l : list A) (i : Z) :
  ¬ (- Z.of_nat (length l) ≤ i < Z.of_nat (length l)) →
  getitem l i = Raise IndexError.
Proof.
  intros Hi. unfold getitem.
  destruct (i <? 0) eqn:Hneg.
  - assert ((0 <=? Z.of_nat (length l) + i) = false) as -> by lia. done.
  - assert ((i <? Z.of_nat (length l)) = false) as -> by lia.
    by rewrite andb_false_r.
Qed.

(** X4: an aggregation method called with an int that is no index of
    [names], counting from either end, raises [IndexError] and changes
    nothing. *)
Theorem out_of_range_column_raises m self w o z na :
  m ≠ Count →
  objects w !! self = Some o →
  ¬ (- Z.of_nat (length (names (_fr o))) ≤ z < Z.of_nat (length (names (_fr o)))) →
  invoke m self (PInt z) na w = (Raise IndexError, w).
Proof.
  intros Hm H Hz. rewrite invoke_add_agg, (_add_agg_run _ _ _ _ _ _ H).
  assert (String.eqb (op_of m) "nrow" = false) as Hop by by destruct m.
  simpl. rewrite Hop. unfold cidx_stores.
  rewrite (getitem_out_of_range _ _ Hz). simpl.
  rewrite put_aggs_id; [done | by rewrite with_aggs_id].
Qed.

Lemma out_of_range_column_raises_witness :
  invoke Var O (PInt 3) (PStr "all") ex_two = (Raise IndexError, ex_two) ∧
  invoke Var O (PInt (-4)) (PStr "all") ex_two = (Raise IndexError, ex_two).
Proof.
  split.
  - apply (out_of_range_column_raises Var O ex_two ex_two_obj); [done| |].
    + vm_compute; reflexivity.
    + simpl. lia.
  - apply (out_of_range_column_raises Var O ex_two ex_two_obj); [done| |].
    + vm_compute; reflexivity.
    + simpl. lia.
Defined.

(** X5: a negative int [z] counts columns from the end: the list stored
    keeps [z] itself, and its key is that of column [z + len(names)], so
    it shares the key of a call made with that non-negative index. *)
Theorem negative_column_counts_from_end m self w o z c na :
  m ≠ Count →
  objects w !! self = Some o →
  z < 0 →
  names (_fr o) !! Z.to_nat (z + Z.of_nat (length (names (_fr o)))) = Some c →
  0 ≤ z + Z.of_nat (length (names (_fr o))) →
  invoke m self (PInt z) na w =
    (Return self,
     put_aggs self o
       (dict_set (op_of m +:+ "_" +:+ c) [PStr (op_of m); PInt z; na] (_aggs o))
       w) ∧
  ∀ na',
    invoke m self (PInt (z + Z.of_nat (length (names (_fr o))))) na' w =
      (Return self,
       put_aggs self o
         (dict_set (op_of m +:+ "_" +:+ c)
            [PStr (op_of m); PInt (z + Z.of_nat (length (names (_fr o)))); na']
            (_aggs o))
         w).
Proof.
  intros Hm H Hz Hc Hge.
  assert (String.eqb (op_of m) "nrow" = false) as Hop by by destruct m.
  pose proof (getitem_lookup _ _ _ Hc) as Hg. rewrite Z2Nat.id in Hg by lia.
  assert (getitem (names (_fr o)) z = Return c) as Hgz.
  { pose proof (lookup_lt_Some _ _ _ Hc) as Hlt. unfold getitem.
    assert ((z <? 0) = true) as -> by lia.
    assert ((0 <=? Z.of_nat (length (names (_fr o))) + z)
            && (Z.of_nat (length (names (_fr o))) + z
                <? Z.of_nat (length (names (_fr o)))) = true)
      as -> by (apply andb_true_intro; split; lia).
    by rewrite Z.add_comm, Hc. }
  split; [|intros na'];
    rewrite invoke_add_agg, (_add_agg_run _ _ _ _ _ _ H); simpl;
    rewrite Hop; unfold cidx_stores.
  - by rewrite Hgz.
  - by rewrite Hg.
Qed.

Lemma negative_column_counts_from_end_witness :
  invoke Max O (PInt (-1)) (PStr "all") ex_new =
    (Return O,
     put_aggs O {| _fr := ex_frame; _by := [PInt 0]; _aggs := []; _res := None |}
       [("max_c", [PStr "max"; PInt (-1); PStr "all"])] ex_new).
Proof.
  apply (proj1 (negative_column_counts_from_end Max O ex_new
                  {| _fr := ex_frame; _by := [PInt 0]; _aggs := []; _res := None |}
                  (-1) "c" (PStr "all") ltac:(done)
                  ltac:(vm_compute; reflexivity) ltac:(lia)
                  ltac:(reflexivity) ltac:(simpl; lia))).
Defined.

(** *** Lists of columns *)

Lemma for_each_app {A : Type} (body : A → M unit) l1 l2 w :
  for_each body (l1 ++ l2) w =
    match for_each body l1 w with
    | (Return _, w1) => for_each body l2 w1
    | (Raise e, w1) => (Raise e, w1)
    end.
Proof.
  revert w. induction l1 as [|x r IH]; intros w; simpl; [done|].
  unfold_monad. destruct (body x w) as [[[]|e] w1]; [apply IH | done].
Qed.

Lemma _add_agg_list self op l na :
  String.eqb op "nrow" = false →
  _add_agg self op (PList l) na =
    (for_each (fun i => _add_agg self op i na;; mret tt) l;; mret self).
Proof. intros Hop. simpl. by rewrite Hop. Qed.

Lemma _add_agg_list_app self op l1 l2 na w :
  String.eqb op "nrow" = false →
  _add_agg self op (PList (l1 ++ l2)) na w =
    match _add_agg self op (PList l1) na w with
    | (Return _, w1) => _add_agg self op (PList l2) na w1
    | (Raise e, w1) => (Raise e, w1)
    end.
Proof.
  intros Hop. rewrite !_add_agg_list by done. unfold_monad.
  rewrite for_each_app.
  by destruct (for_each _ l1 w) as [[[]|e] w1].
Qed.

Lemma _add_agg_singleton self op x na w :
  String.eqb op "nrow" = false →
  _add_agg self op (PList [x]) na w = _add_agg self op x na w.
Proof.
  intros Hop. rewrite _add_agg_list by done. simpl. unfold_monad.
  destruct (_add_agg_effect self op x na w) as [e [He _]].
  destruct (_add_agg self op x na w) as [[r|e'] w1]; simpl in *.
  - destruct e; simpl in He; [done|]. by injection He as ->.
  - done.
Qed.

Lemma op_of_not_nrow m : m ≠ Count → String.eqb (op_of m) "nrow" = false.
Proof. by destruct m. Qed.

(** X6: a call with a list of columns is the chain of the calls with its
    parts: with a one-element list it is the call with that element, and
    with [l1 + l2] it is the call with [l1] followed, unless that raised,
    by the call with [l2] on the object as the first one left it. *)
Theorem list_col_is_chain_of_calls m self na w :
  m ≠ Count →
  (∀ x, invoke m self (PList [x]) na w = invoke m self x na w) ∧
  (∀ l1 l2,
     invoke m self (PList (l1 ++ l2)) na w =
       match invoke m self (PList l1) na w with
       | (Return _, w1) => invoke m self (PList l2) na w1
       | (Raise e, w1) => (Raise e, w1)
       end).
Proof.
  intros Hm. apply op_of_not_nrow in Hm. split.
  - intros x. rewrite !invoke_add_agg. by apply _add_agg_singleton.
  - intros l1 l2. rewrite !invoke_add_agg.
    rewrite (_add_agg_list_app _ _ _ _ _ _ Hm).
    by destruct (_add_agg self (op_of m) (PList l1) na w) as [[r|e] w1].
Qed.

Lemma list_col_is_chain_of_calls_witness :
  invoke Min O (PList ([PStr "b"] ++ [PInt 2])) (PStr "all") ex_new =
    invoke Min O (PList [PInt 2]) (PStr "all")
      (invoke Min O (PList [PStr "b"]) (PStr "all") ex_new).2.
Proof.
  exact (proj2 (list_col_is_chain_of_calls Min O (PStr "all") ex_new
                  ltac:(done)) [PStr "b"] [PInt 2]).
Defined.

(** X7: a call with a list of columns is not undone when an element
    fails: the call raises what that element raises, and the object
    keeps what the elements before it stored. *)
Theorem list_col_failure_keeps_earlier m self l1 x l2 na w r w1 e w2 :
  m ≠ Count →
  invoke m self (PList l1) na w = (Return r, w1) →
  invoke m self x na w1 = (Raise e, w2) →
  invoke m self (PList (l1 ++ x :: l2)) na w = (Raise e, w2).
Proof.
  intros Hm H1 Hx. apply op_of_not_nrow in Hm.
  rewrite invoke_add_agg in *.
  rewrite (_add_agg_list_app _ _ _ _ _ _ Hm), H1.
  change (x :: l2) with ([x] ++ l2).
  rewrite (_add_agg_list_app _ _ _ _ _ _ Hm).
  by rewrite (_add_agg_singleton _ _ _ _ _ Hm), Hx.
Qed.

Lemma list_col_failure_keeps_earlier_witness :
  invoke Mean O (PList ([PStr "b"] ++ PStr "z" :: [PStr "c"])) (PStr "all")
    ex_new =
    (Raise ValueError,
     put_aggs O {| _fr := ex_frame; _by := [PInt 0]; _aggs := []; _res := None |}
       [("mean_b", [PStr "mean"; PInt 1; PStr "all"])] ex_new).
Proof.
  apply (list_col_failure_keeps_earlier Mean O [PStr "b"] (PStr "z")
           [PStr "c"] (PStr "all") ex_new O
           (put_aggs O {| _fr := ex_frame; _by := [PInt 0]; _aggs := [];
                          _res := None |}
              [("mean_b", [PStr "mean"; PInt 1; PStr "all"])] ex_new)).
  - done.
  - vm_compute; reflexivity.
  - vm_compute; reflexivity.
Defined.

Lemma and_then_no_store_l t : and_then no_store t = t.
Proof. by destruct t. Qed.



Lemma col_stores_ungrouped fr bys op na l :
  String.eqb op "nrow" = false →
  each_stores (fun i => if negb (int_in i bys)
                        then cidx_stores fr op i na
                        else no_store) l =
    each_stores (fun v => col_stores fr bys op v na)
      (PInt <$> List.filter (fun i => negb (int_in i bys)) l).
Proof.
  intros Hop. induction l as [|i r IH]; simpl; [done|].
  rewrite IH. destruct (int_in i bys); simpl.
  - by rewrite and_then_no_store_l.
  - by rewrite Hop.
Qed.

(** X8: [col=None] is the call with the list of the column indices
    below [ncol] that are not among the grouping indices. *)
Theorem none_col_is_list_of_ungrouped m self w o na :
  m ≠ Count →
  objects w !! self = Some o →
  invoke m self PNone na w = invoke m self (PList (ungrouped o)) na w.
Proof.
  intros Hm H. apply op_of_not_nrow in Hm.
  rewrite !invoke_add_agg, !(_add_agg_run _ _ _ _ _ _ H).
  assert (col_stores (_fr o) (_by o) (op_of m) PNone na =
            col_stores (_fr o) (_by o) (op_of m) (PList (ungrouped o)) na)
    as ->; [|done].
  simpl. rewrite Hm. by apply col_stores_ungrouped.
Qed.

Lemma none_col_is_list_of_ungrouped_witness :
  invoke Ss O PNone (PStr "rm") ex_two =
    invoke Ss O (PList [PInt 1; PInt 2]) (PStr "rm") ex_two.
Proof.
  apply (none_col_is_list_of_ungrouped Ss O ex_two ex_two_obj); [done|].
  vm_compute; reflexivity.
Defined.






(** *** What a call leaves alone *)

(** X10: an aggregation method makes no expression and no frame handle:
    nothing is sent before [get_frame()]. *)
Theorem aggregation_makes_no_handle m self col na w :
  handles (invoke m self col na w).2 = handles w.
Proof.
  rewrite invoke_add_agg.
  by destruct (_add_agg_effect self (op_of m) col na w)
    as [_ [_ [-> | (o & d & _ & ->)]]].
Qed.

(** X11: a call on one object changes no other object. *)
Theorem call_changes_no_other_object self other c w :
  other ≠ self →
  objects (do_call self c w).2 !! other = objects w !! other.
Proof.
  intros Hne. destruct c as [m col na| |]; simpl.
  - rewrite invoke_add_agg.
    destruct (_add_agg_effect self (op_of m) col na w)
      as [_ [_ [-> | (o & d & _ & ->)]]]; [done|].
    unfold put_aggs. simpl. by rewrite lookup_insert_ne.
  - destruct (objects w !! self) as [o|] eqn:H.
    + rewrite (get_frame_run _ _ _ H). destruct (_res o); [done|].
      simpl. by rewrite lookup_insert_ne.
    + by rewrite (get_frame_dangling _ _ H).
  - unfold frame. destruct (objects w !! self) as [o|] eqn:H.
    + rewrite (get_frame_run _ _ _ H). destruct (_res o); [done|].
      simpl. by rewrite lookup_insert_ne.
    + by rewrite (get_frame_dangling _ _ H).
Qed.

Lemma call_changes_no_other_object_witness :
  objects (do_call 1%nat (Agg Min PNone (PStr "all"))
             (__init__ ex_frame (PStr "b") ex_two).2).2 !! O =
  objects (__init__ ex_frame (PStr "b") ex_two).2 !! O.
Proof.
  apply (call_changes_no_other_object 1%nat O). done.
Defined.

(** X12: on an object, [get_frame()] never raises: the key it looks up
    in line 227 is always there.  It returns the handle that [_res] holds
    afterwards, and makes one new handle at most. *)
Theorem get_frame_always_returns self w o :
  objects w !! self = Some o →
  ∃ h o', get_frame self w = (Return h, (get_frame self w).2) ∧
          objects (get_frame self w).2 !! self = Some o' ∧
          _res o' = Some h ∧
          (length (handles (get_frame self w).2) ≤ S (length (handles w)))%nat.
Proof.
  intros H. rewrite (get_frame_run _ _ _ H).
  destruct (_res o) as [h|] eqn:Hres; simpl.
  - exists h, o. split_and!; [done | done | done | lia].
  - eexists _, _. rewrite lookup_insert_eq. split_and!; [done..|].
    rewrite length_app. simpl. lia.
Qed.

Lemma get_frame_always_returns_witness :
  ∃ h o', get_frame O ex_new = (Return h, (get_frame O ex_new).2) ∧
          objects (get_frame O ex_new).2 !! O = Some o' ∧
          _res o' = Some h ∧
          (length (handles (get_frame O ex_new).2) ≤ S (length (handles ex_new)))%nat.
Proof.
  apply (get_frame_always_returns O ex_new
           {| _fr := ex_frame; _by := [PInt 0]; _aggs := []; _res := None |}).
  vm_compute; reflexivity.
Defined.







(** *** What the dictionary holds after any calls *)

Lemma cidx_stores_shaped fr m cidx na :
  Forall (spec_entry fr) (cidx_stores fr (op_of m) cidx na).1.
Proof.
  unfold cidx_stores. destruct (getitem (names fr) cidx) as [c|e] eqn:E.
  - repeat constructor. by exists m, cidx, na, c.
  - constructor.
Qed.

Lemma each_stores_Forall {A : Type} (P : store → Prop) (f : A → stores) l :
  Forall (fun x => Forall P (f x).1) l → Forall P (each_stores f l).1.
Proof.
  induction 1 as [|x r Hx _ IH]; simpl; [constructor|].
  unfold and_then. destruct (f x) as [l1 [e1|]]; simpl in *; [done|].
  by apply Forall_app.
Qed.

Lemma col_stores_shaped fr bys m col na :
  Forall (spec_entry fr) (col_stores fr bys (op_of m) col na).1.
Proof.
  induction col as [| s | z | l IH | l IH | id n] using pyval_nested_ind;
    simpl; destruct (String.eqb (op_of m) "nrow");
    try apply cidx_stores_shaped; try by apply each_stores_Forall.
  - apply each_stores_Forall, Forall_forall. intros i _.
    destruct (int_in i bys); simpl; [constructor | apply cidx_stores_shaped].
  - destruct (list_index (names fr) s); [apply cidx_stores_shaped|constructor].
  - constructor.
Qed.

(** Whatever object a call is made on, an object [self] that is there
    stays, with its frame, and its dictionary after the call is the one
    before with some entries stored, each of the form of [spec_entry]. *)
Lemma do_call_stores t c self w o :
  objects w !! self = Some o →
  ∃ o' l, objects (do_call t c w).2 !! self = Some o' ∧
          _fr o' = _fr o ∧
          _aggs o' = apply_stores l (_aggs o) ∧
          Forall (spec_entry (_fr o)) l.
Proof.
  intros H.
  assert (∀ w', objects w' !! self = Some o →
            ∃ o' l, objects w' !! self = Some o' ∧ _fr o' = _fr o ∧
                    _aggs o' = apply_stores l (_aggs o) ∧
                    Forall (spec_entry (_fr o)) l) as Hsame.
  { intros w' H'. exists o, []. split_and!; [done..|constructor]. }
  assert (objects (get_frame t w).2 !! self = Some o ∨
          ∃ h, objects (get_frame t w).2 !! self = Some (with_res h o)) as Hget.
  { destruct (objects w !! t) as [ot|] eqn:Ht.
    - rewrite (get_frame_run _ _ _ Ht). destruct (_res ot); [by left|].
      simpl. destruct (decide (t = self)) as [->|Hne].
      + rewrite lookup_insert_eq. right. eexists. by simplify_eq.
      + rewrite lookup_insert_ne by done. by left.
    - rewrite (get_frame_dangling _ _ Ht). by left. }
  destruct c as [m col na| |]; simpl.
  - rewrite invoke_add_agg. destruct (decide (t = self)) as [->|Hne].
    + rewrite (_add_agg_run _ _ _ _ _ _ H). cbn [snd].
      rewrite put_aggs_lookup.
      eexists _, _. split_and!; [done | done | done |].
      apply col_stores_shaped.
    + apply Hsame.
      destruct (_add_agg_effect t (op_of m) col na w)
        as [_ [_ [-> | (ot & d & _ & ->)]]]; [done|].
      unfold put_aggs. simpl. by rewrite lookup_insert_ne.
  - destruct Hget as [Hg|[h Hg]]; [by apply Hsame|].
    exists (with_res h o), []. split_and!; [done..|constructor].
  - unfold frame. destruct Hget as [Hg|[h Hg]]; [by apply Hsame|].
    exists (with_res h o), []. split_and!; [done..|constructor].
Qed.

Lemma run_calls_stores cs self w o :
  objects w !! self = Some o →
  ∃ o' l, objects (run_calls cs w) !! self = Some o' ∧
          _fr o' = _fr o ∧
          _aggs o' = apply_stores l (_aggs o) ∧
          Forall (spec_entry (_fr o)) l.
Proof.
  revert w o. induction cs as [|[t c] cs IH]; intros w o H.
  - exists o, []. split_and!; [done..|constructor].
  - destruct (do_call_stores t c self w o H) as (o1 & l1 & H1 & Hfr1 & Ha1 & Hl1).
    destruct (IH _ _ H1) as (o2 & l2 & H2 & Hfr2 & Ha2 & Hl2).
    exists o2, (l1 ++ l2). split_and!.
    + done.
    + congruence.
    + by rewrite apply_stores_app, <- Ha1.
    + apply Forall_app. split; [done|]. by rewrite <- Hfr1.
Qed.

(** X14: no call removes an aggregation: a key that is in the
    dictionary of an object stays in it through any calls, on this
    object or on others. *)
Theorem keys_are_never_removed self w o k cs :
  objects w !! self = Some o →
  k ∈ dict_keys (_aggs o) →
  ∃ o', objects (run_calls cs w) !! self = Some o' ∧
        k ∈ dict_keys (_aggs o').
Proof.
  intros H Hk.
  destruct (run_calls_stores cs self w o H) as (o' & l & H' & _ & Ha & _).
  exists o'. split; [done|]. rewrite Ha. by apply dict_keys_apply_stores_mono.
Qed.

Lemma keys_are_never_removed_witness :
  ∃ o', objects (run_calls [(O, Agg Min (PStr "b") (PStr "rm"));
                            (O, GetFrame);
                            (O, Agg Count PNone (PStr "all"))] ex_two)
          !! O = Some o' ∧
        "sum_c" ∈ dict_keys (_aggs o').
Proof.
  apply (keys_are_never_removed O ex_two ex_two_obj "sum_c").
  - vm_compute; reflexivity.
  - compute_done.
Defined.

Lemma Forall_dict_set {V : Type} (P : string * V → Prop) k v (d : dict V) :
  Forall P d → P (k, v) → Forall P (dict_set k v d).
Proof.
  intros Hd Hkv. induction Hd as [|[k' v'] r Hx Hr IH]; simpl.
  - by repeat constructor.
  - destruct (String.eqb k' k); by constructor.
Qed.

Lemma Forall_apply_stores (P : store → Prop) l d :
  Forall P d → Forall P l → Forall P (apply_stores l d).
Proof.
  intros Hd Hl. revert d Hd.
  induction Hl as [|[k v] r Hkv _ IH]; intros d Hd; [done|].
  rewrite apply_stores_cons. apply IH. by apply Forall_dict_set.
Qed.

(** X15: every entry of the dictionary of an object that the constructor
    made is, after any calls, a list [[op, cidx, na]] where [op] is the
    operation of one of the nine methods and [cidx] an index that [names]
    accepts, under the key made of [op] and the name at [cidx]. *)
Theorem entries_are_op_index_na fr by_ w0 self w cs :
  __init__ fr by_ w0 = (Return self, w) →
  ∃ o', objects (run_calls cs w) !! self = Some o' ∧
        Forall (spec_entry fr) (_aggs o').
Proof.
  intros Hinit. destruct (__init___returns _ _ _ _ _ Hinit) as [bys H].
  destruct (run_calls_stores cs self w _ H) as (o' & l & H' & _ & Ha & Hl).
  exists o'. split; [done|]. rewrite Ha. simpl in *.
  apply Forall_apply_stores; [constructor | done].
Qed.

Lemma entries_are_op_index_na_witness :
  ∃ o', objects (run_calls [(O, Agg Sd PNone (PStr "all")); (O, GetFrame)]
                   ex_new) !! O = Some o' ∧
        Forall (spec_entry ex_frame) (_aggs o').
Proof.
  apply (entries_are_op_index_na ex_frame (PStr "a") no_objects O ex_new).
  vm_compute; reflexivity.
Defined.

Lemma dict_get_Some_elem {V : Type} k v (d : dict V) :
  dict_get k d = Some v → (k, v) ∈ d.
Proof.
  induction d as [|[k' v'] r IH]; simpl; [done|].
  destruct (String.eqb k' k) eqn:E.
  - apply String.eqb_eq in E. intros [= ->]. subst. apply list_elem_of_here.
  - intros Hg. apply list_elem_of_further. by apply IH.
Qed.

Lemma read_aggs_length d :
  Forall (fun kv => length kv.2 = 3%nat) d →
  length (read_aggs d) = (3 * length d)%nat.
Proof.
  intros Hd. unfold read_aggs.
  assert (∀ ks, (∀ k, k ∈ ks → k ∈ dict_keys d) →
            length (concat ((fun k => default [] (dict_get k d)) <$> ks)) =
              (3 * length ks)%nat) as Hks.
  { induction ks as [|k r IH]; intros Hin; [done|].
    rewrite fmap_cons. cbn [concat].
    rewrite length_app, IH by (intros k' Hk'; by apply Hin, list_elem_of_further).
    destruct (dict_get_key k d) as [v Hv]; [apply Hin, list_elem_of_here|].
    rewrite Hv. simpl. apply dict_get_Some_elem in Hv.
    rewrite Forall_forall in Hd. specialize (Hd _ Hv). simpl in Hd. lia. }
  rewrite Hks by done. unfold dict_keys. by rewrite length_fmap.
Qed.

(** X16: the expression that [get_frame()] sends for a dictionary of
    entries made by the methods has two arguments, the frame and the
    grouping list, and then three for every key of the dictionary. *)
Theorem get_frame_sends_three_per_key self w o :
  objects w !! self = Some o →
  _res o = None →
  Forall (spec_entry (_fr o)) (_aggs o) →
  ∃ e, handles (get_frame self w).2 = handles w ++ [e] ∧
       _op e = "GB" ∧
       length (_children e) = (2 + 3 * length (dict_keys (_aggs o)))%nat.
Proof.
  intros H Hres Hshape. rewrite (get_frame_run _ _ _ H), Hres.
  exists (GB_expr o). split_and!; [done | done |].
  unfold GB_expr, dict_keys. simpl. rewrite !length_fmap, read_aggs_length; [done|].
  eapply Forall_impl; [exact Hshape|].
  by intros kv (m & cidx & na & c & _ & ->).
Qed.

Lemma get_frame_sends_three_per_key_witness :
  ∃ e, handles (get_frame O ex_two).2 = handles ex_two ++ [e] ∧
       _op e = "GB" ∧
       length (_children e) = 8%nat.
Proof.
  apply (get_frame_sends_three_per_key O ex_two ex_two_obj).
  - vm_compute; reflexivity.
  - reflexivity.
  - repeat constructor.
    + by exists Min, 1, (PStr "all"), "b".
    + by exists Sum, 2, (PStr "rm"), "c".
Defined.

(** *** Keys of different methods and columns *)

Lemma op_key_inj m m' c c' :
  op_of m +:+ "_" +:+ c = op_of m' +:+ "_" +:+ c' → m = m' ∧ c = c'.
Proof.
  intros H.
  assert (m = m') as <-.
  { destruct m, m'; try done; vm_compute in H; discriminate H. }
  split; [done|]. by do 2 apply (inj (String.app _)) in H.
Qed.

Lemma col_stores_int fr bys m i na :
  (m = Count → i = 0) →
  col_stores fr bys (op_of m) (PInt i) na = cidx_stores fr (op_of m) i na.
Proof.
  intros Hi. destruct m; try done. by rewrite Hi.
Qed.

(** X17: two specifications of different methods, or of columns with
    different names, never replace one another: after the two calls both
    are in the dictionary, each under its own key. *)
Theorem different_method_or_column_keeps_both
    m1 m2 self w o i1 i2 c1 c2 na1 na2 :
  objects w !! self = Some o →
  (m1 = Count → i1 = 0) →
  (m2 = Count → i2 = 0) →
  getitem (names (_fr o)) i1 = Return c1 →
  getitem (names (_fr o)) i2 = Return c2 →
  m1 ≠ m2 ∨ c1 ≠ c2 →
  ∃ o', objects (invoke m2 self (PInt i2) na2
                   (invoke m1 self (PInt i1) na1 w).2).2 !! self = Some o' ∧
        dict_get (op_of m1 +:+ "_" +:+ c1) (_aggs o') =
          Some [PStr (op_of m1); PInt i1; na1] ∧
        dict_get (op_of m2 +:+ "_" +:+ c2) (_aggs o') =
          Some [PStr (op_of m2); PInt i2; na2].
Proof.
  intros H Hi1 Hi2 Hc1 Hc2 Hne.
  rewrite !invoke_add_agg, (_add_agg_run _ _ _ _ _ _ H). cbn [snd].
  rewrite (_add_agg_run _ _ _ _ _ _ (put_aggs_lookup self o _ w)). cbn [snd].
  rewrite put_aggs_lookup. eexists. split; [done|].
  cbn [_aggs _fr _by with_aggs].
  rewrite !col_stores_int by done. unfold cidx_stores. rewrite Hc1, Hc2.
  cbn [fst]. rewrite !apply_stores_cons. cbn [apply_stores foldl].
  split; [|apply dict_get_set_eq].
  rewrite dict_get_set_ne; [apply dict_get_set_eq|].
  intros Heq. apply op_key_inj in Heq as [-> ->]. by destruct Hne.
Qed.

Lemma different_method_or_column_keeps_both_witness :
  ∃ o', objects (invoke Ss O (PInt 1) (PStr "rm")
                   (invoke Sum O (PInt 1) (PStr "all") ex_new).2).2 !! O
          = Some o' ∧
        dict_get "sum_b" (_aggs o') = Some [PStr "sum"; PInt 1; PStr "all"] ∧
        dict_get "sumSquares_b" (_aggs o') =
          Some [PStr "sumSquares"; PInt 1; PStr "rm"].
Proof.
  apply (different_method_or_column_keeps_both Sum Ss O ex_new
           {| _fr := ex_frame; _by := [PInt 0]; _aggs := []; _res := None |}
           1 1 "b" "b" (PStr "all") (PStr "rm")).
  - vm_compute; reflexivity.
  - done.
  - done.
  - reflexivity.
  - reflexivity.
  - by left.
Defined.

(** *** Grouping by a name, then aggregating all the rest *)

Lemma dict_keys_apply_stores_elem k l d :
  k ∈ dict_keys (apply_stores l d) ↔ k ∈ dict_keys d ∨ k ∈ l.*1.
Proof.
  split.
  - revert d. induction l as [|[k' v'] r IH]; intros d; [by left|].
    rewrite apply_stores_cons, fmap_cons. intros Hk.
    destruct (IH _ Hk) as [Hd|Hr].
    + rewrite dict_keys_set in Hd. case_decide; [by left|].
      apply elem_of_app in Hd as [Hd|Hd]; [by left|].
      apply list_elem_of_singleton in Hd as ->. right. apply list_elem_of_here.
    + right. by apply list_elem_of_further.
  - intros [Hd|Hl].
    + by apply dict_keys_apply_stores_mono.
    + by apply dict_keys_apply_stores_in.
Qed.

Lemma column_name_lookup fr (j : nat) c :
  names fr !! j = Some c → column_name fr (Z.of_nat j) = c.
Proof.
  intros Hj. unfold column_name. by rewrite (getitem_lookup _ _ _ Hj).
Qed.

Lemma col_stores_None fr bys op na :
  String.eqb op "nrow" = false →
  col_stores fr bys op PNone na =
    each_stores (fun i => if negb (int_in i bys)
                          then cidx_stores fr op i na
                          else no_store)
                (range (ncol fr)).
Proof. intros Hop. simpl. by rewrite Hop. Qed.

(** X18: on a frame with as many names as columns, all different,
    [GroupBy(fr, name).m()] with the default [col=None] leaves a
    dictionary whose keys for [m] are those of all the columns except
    the one grouped on. *)
Theorem group_by_name_then_default_covers_the_rest
    fr s w0 self w m na :
  NoDup (names fr) →
  ncol fr = length (names fr) →
  m ≠ Count →
  __init__ fr (PStr s) w0 = (Return self, w) →
  ∃ o', invoke m self PNone na w = (Return self, (invoke m self PNone na w).2) ∧
        objects (invoke m self PNone na w).2 !! self = Some o' ∧
        ∀ c, op_of m +:+ "_" +:+ c ∈ dict_keys (_aggs o') ↔
             c ∈ names fr ∧ c ≠ s.
Proof.
  intros Hnd Hncol Hm Hinit.
  assert (∃ j, find_index s (names fr) = Some j ∧
               objects w !! self =
                 Some {| _fr := fr; _by := [PInt (Z.of_nat j)]; _aggs := [];
                         _res := None |}) as (j & Hj & H).
  { unfold __init__, list_index in Hinit. unfold_monad.
    destruct (find_index s (names fr)) as [j|]; [|done].
    exists j. split; [done|]. unfold alloc in Hinit.
    injection Hinit as <- <-. simpl. apply lookup_insert_eq. }
  pose proof (find_index_lookup _ _ _ Hj) as Hjs.
  pose proof (op_of_not_nrow _ Hm) as Hop.
  rewrite invoke_add_agg, (_add_agg_run _ _ _ _ _ _ H).
  cbn [_fr _by _aggs].
  assert (col_stores fr [PInt (Z.of_nat j)] (op_of m) PNone na =
            (default_stores fr [PInt (Z.of_nat j)] (op_of m) na, None)) as ->.
  { rewrite (col_stores_None _ _ _ _ Hop). apply each_stores_default.
    intros i Hi. apply elem_of_range in Hi. lia. }
  cbn [fst snd ends]. rewrite put_aggs_lookup.
  eexists. split_and!; [done | done |]. cbn [_aggs with_aggs].
  intros c. rewrite dict_keys_apply_stores_elem.
  assert (∀ i, i ∈ List.filter (fun i => negb (int_in i [PInt (Z.of_nat j)]))
                     (range (ncol fr)) ↔
               0 ≤ i < Z.of_nat (ncol fr) ∧ i ≠ Z.of_nat j) as Hmem.
  { intros i. rewrite list_elem_of_In, filter_In, <- list_elem_of_In.
    rewrite elem_of_range, negb_true_iff. simpl. rewrite orb_false_r.
    rewrite Z.eqb_neq. split; intros [? ?]; split; by try congruence. }
  split.
  - intros [Hnil|Hin]; [by apply elem_of_nil in Hnil|].
    unfold default_stores in Hin. rewrite <- list_fmap_compose in Hin.
    apply list_elem_of_fmap in Hin as (i & Hkey & Hi). simpl in Hkey.
    apply Hmem in Hi as [Hrange Hij].
    do 2 apply (inj (String.app _)) in Hkey.
    destruct (lookup_lt_is_Some_2 (names fr) (Z.to_nat i)) as [ci Hci]; [lia|].
    pose proof (column_name_lookup _ _ _ Hci) as Hname.
    rewrite Z2Nat.id in Hname by lia. rewrite Hname in Hkey. subst ci.
    split; [by eapply list_elem_of_lookup_2|].
    intros ->. pose proof (NoDup_lookup _ _ _ _ Hnd Hci Hjs). lia.
  - intros [Hc Hcs]. right.
    apply list_elem_of_lookup in Hc as [i Hi].
    unfold default_stores. rewrite <- list_fmap_compose.
    apply list_elem_of_fmap. exists (Z.of_nat i). split.
    + simpl. by rewrite (column_name_lookup _ _ _ Hi).
    + apply Hmem. pose proof (lookup_lt_Some _ _ _ Hi). split; [lia|].
      intros Heq. apply Nat2Z.inj in Heq. subst i. congruence.
Qed.

Lemma group_by_name_then_default_covers_the_rest_witness :
  ∃ o', invoke Mean O PNone (PStr "all") ex_new =
          (Return O, (invoke Mean O PNone (PStr "all") ex_new).2) ∧
        objects (invoke Mean O PNone (PStr "all") ex_new).2 !! O = Some o' ∧
        ∀ c, "mean" +:+ "_" +:+ c ∈ dict_keys (_aggs o') ↔
             c ∈ names ex_frame ∧ c ≠ "a".
Proof.
  apply (group_by_name_then_default_covers_the_rest ex_frame "a" no_objects
           O ex_new Mean (PStr "all")).
  - compute_done.
  - reflexivity.
  - done.
  - vm_compute; reflexivity.
Defined.
